(** * Multipath flow accumulation: a shallow embedding of [multipath_accum.py]

    The Python module computes a multipath flow accumulation over a filled
    DEM with numpy.  The embedding follows the three functions of the module,

    - [labelFlats]  (flat detection and component labelling),
    - [flatThing]   (zonal sum of a flat and its distribution to pour points),
    - [multipath]   (the elevation-ordered sweep),

    and keeps their local names.  Arrays are lists of rows; every whole-array
    numpy operation is a tabulation of its element-wise definition.

    Numbers.  A float64 is modelled as an exact rational extended with the
    three IEEE special values: arithmetic on finite values is exact (no
    rounding, no signed zero), and the special values follow the IEEE rules
    that numpy applies (a division by zero yields an infinity or a NaN and a
    warning, never an exception; every ordered comparison with a NaN is
    false).  The exact sum or difference of two finite values is finite in
    the model, whereas float64 overflows to an infinity beyond its range:
    comparisons are those of the program on every input, but a value of the
    model is the value of the program only while the exact results stay in
    the float64 range.  Statements that rely on a finite drop therefore
    carry the bound [float_bound] as a hypothesis. *)

From Stdlib Require Import List Arith Bool Lia ZArith QArith Qcanon.
From Stdlib Require Import Permutation Sorted Relations Lqa.
Import ListNotations.

Set Implicit Arguments.

Close Scope Qc_scope.
Close Scope Q_scope.
Open Scope nat_scope.

(** ** Extended values *)

Inductive fval : Type :=
| Fin (q : Qc)
| PInf
| NInf
| NaN.

Definition Qc0 : Qc := Q2Qc 0%Q.
Definition Qc1 : Qc := Q2Qc 1%Q.

Definition f0 : fval := Fin Qc0.
Definition f1 : fval := Fin Qc1.

Definition Qc_ltb (a b : Qc) : bool :=
  match (a ?= b)%Qc with Lt => true | _ => false end.
Definition Qc_eqb (a b : Qc) : bool :=
  match (a ?= b)%Qc with Eq => true | _ => false end.
Definition Qc_leb (a b : Qc) : bool :=
  match (a ?= b)%Qc with Gt => false | _ => true end.

Definition is_nan (a : fval) : bool :=
  match a with NaN => true | _ => false end.

Definition is_fin (a : fval) : bool :=
  match a with Fin _ => true | _ => false end.

(** [a < b] on floats: false as soon as one side is a NaN. *)
Definition fltb (a b : fval) : bool :=
  match a, b with
  | NaN, _ | _, NaN => false
  | Fin x, Fin y => Qc_ltb x y
  | NInf, NInf => false
  | NInf, _ => true
  | _, NInf => false
  | PInf, _ => false
  | Fin _, PInf => true
  end.

(** [a == b] on floats. *)
Definition feqb (a b : fval) : bool :=
  match a, b with
  | Fin x, Fin y => Qc_eqb x y
  | PInf, PInf => true
  | NInf, NInf => true
  | _, _ => false
  end.

Definition fleb (a b : fval) : bool := fltb a b || feqb a b.
Definition fgeb (a b : fval) : bool := fleb b a.

Definition fneg (a : fval) : fval :=
  match a with
  | Fin x => Fin (- x)%Qc
  | PInf => NInf
  | NInf => PInf
  | NaN => NaN
  end.

Definition fadd (a b : fval) : fval :=
  match a, b with
  | NaN, _ | _, NaN => NaN
  | Fin x, Fin y => Fin (x + y)%Qc
  | PInf, NInf | NInf, PInf => NaN
  | PInf, _ | _, PInf => PInf
  | NInf, _ | _, NInf => NInf
  end.

Definition fsub (a b : fval) : fval := fadd a (fneg b).

(** The sign of a finite value, as a comparison with zero. *)
Definition Qc_sign (x : Qc) : comparison := (x ?= Qc0)%Qc.

Definition finf (s : comparison) : fval :=
  match s with Gt => PInf | Lt => NInf | Eq => NaN end.

Definition sign_mul (s t : comparison) : comparison :=
  match s, t with
  | Eq, _ | _, Eq => Eq
  | Gt, Gt | Lt, Lt => Gt
  | _, _ => Lt
  end.

Definition fmul (a b : fval) : fval :=
  match a, b with
  | NaN, _ | _, NaN => NaN
  | Fin x, Fin y => Fin (x * y)%Qc
  | Fin x, PInf | PInf, Fin x => finf (Qc_sign x)
  | Fin x, NInf | NInf, Fin x => finf (sign_mul (Qc_sign x) Lt)
  | PInf, PInf | NInf, NInf => PInf
  | PInf, NInf | NInf, PInf => NInf
  end.

(** Division.  The only zero divisors of the program are a count and a sum of
    non-negative terms, that is [+0.0]: [x / 0] is the infinity of the sign
    of [x], and [0 / 0] is a NaN. *)
Definition fdiv (a b : fval) : fval :=
  match a, b with
  | NaN, _ | _, NaN => NaN
  | Fin x, Fin y =>
      if Qc_eqb y Qc0 then finf (Qc_sign x) else Fin (x / y)%Qc
  | Fin _, _ => f0
  | _, PInf | _, NInf => NaN
  | PInf, Fin y => if Qc_ltb y Qc0 then NInf else PInf
  | NInf, Fin y => if Qc_ltb y Qc0 then PInf else NInf
  end.

Definition of_nat (n : nat) : fval := Fin (Q2Qc (inject_Z (Z.of_nat n))).

(** [numpy.sum] of a sequence of floats; the sum of no element is [0.0]. *)
Definition fsum (l : list fval) : fval := fold_left fadd l f0.

(** Truth value of a float ([0.0] is false, a NaN is true). *)
Definition fnonzero (a : fval) : bool := negb (feqb a f0).

(** A decidable equality on values that ignores the canonicity proofs. *)
Definition fval_eqb (a b : fval) : bool :=
  match a, b with
  | Fin x, Fin y => Qeq_bool x y
  | PInf, PInf | NInf, NInf | NaN, NaN => true
  | _, _ => false
  end.

(** ** Arrays *)

Definition array (T : Type) := list (list T).

Definition nrows_of {T} (A : array T) : nat := length A.
Definition ncols_of {T} (A : array T) : nat := length (hd [] A).

Definition get {T} (d : T) (A : array T) (r c : nat) : T :=
  nth c (nth r A []) d.

Definition tabulate {T} (R C : nat) (f : nat -> nat -> T) : array T :=
  map (fun r => map (fun c => f r c) (seq 0 C)) (seq 0 R).

(** The cells of an [R] by [C] array in C (row-major) order. *)
Definition cells (R C : nat) : list (nat * nat) :=
  flat_map (fun r => map (fun c => (r, c)) (seq 0 C)) (seq 0 R).

Definition fget := @get fval NaN.
Definition nget := @get nat 0.
Definition bget := @get bool false.

(** [numpy.zeros] and [numpy.ones_like(...).astype(float)]. *)
Definition zeros (R C : nat) : array nat := tabulate R C (fun _ _ => 0).
Definition ones_like {T} (A : array T) : array fval :=
  tabulate (nrows_of A) (ncols_of A) (fun _ _ => f1).

(** A cell of the slice [[1:-1, 1:-1]] of an [R] by [C] array. *)
Definition interior (R C r c : nat) : bool :=
  (1 <=? r) && (r + 1 <? R) && (1 <=? c) && (c + 1 <? C).

Definition in_box (R C r c : nat) : bool := (r <? R) && (c <? C).

Definition b2n (b : bool) : nat := if b then 1 else 0.

(** ** [scipy.ndimage.binary_dilation] with the full 3 by 3 structure

    One iteration, origin at the centre, everything outside the array taken
    as background: a cell of the result is set when a cell of its 3 by 3
    window is set in the input. *)

Definition offsets3 : list (nat * nat) :=
  [(0,0);(0,1);(0,2);(1,0);(1,1);(1,2);(2,0);(2,1);(2,2)].

(** The cell at offset [(dr - 1, dc - 1)] of [(r, c)], background when that
    position has a negative coordinate. *)
Definition shifted (S : array bool) (r c : nat) (d : nat * nat) : bool :=
  if (r + fst d <? 1) || (c + snd d <? 1) then false
  else bget S (r + fst d - 1) (c + snd d - 1).

Definition binary_dilation (S : array bool) : array bool :=
  let R := nrows_of S in
  let C := ncols_of S in
  tabulate R C (fun r c => existsb (shifted S r c) offsets3).

(** ** [skimage.measure.label] on a boolean array, background [False]

    Library code, modelled from its documentation: with the default (full)
    connectivity two foreground cells of a 2-D array belong to one region when
    a chain of 8-adjacent foreground cells joins them; the regions are
    numbered from 1 in the order in which a row-major scan meets them, the
    background is 0, and the second result is the number of regions.

    The model scans the cells in row-major order and floods the region of
    every foreground cell that has no label yet. *)

Definition single (R C : nat) (p : nat * nat) : array bool :=
  tabulate R C (fun r c => (r =? fst p) && (c =? snd p)).

Definition grow (mask S : array bool) : array bool :=
  let R := nrows_of mask in
  let C := ncols_of mask in
  let D := binary_dilation S in
  tabulate R C (fun r c => bget mask r c && bget D r c).

Definition component (mask : array bool) (p : nat * nat) : array bool :=
  let R := nrows_of mask in
  let C := ncols_of mask in
  Nat.iter (R * C) (grow mask) (single R C p).

Definition paint (R C : nat) (comp : array bool) (id : nat) (L : array nat)
  : array nat :=
  tabulate R C (fun r c => if bget comp r c then id else nget L r c).

Fixpoint label_scan (mask : array bool) (todo : list (nat * nat))
  (num : nat) (L : array nat) : array nat * nat :=
  match todo with
  | [] => (L, num)
  | p :: rest =>
      if bget mask (fst p) (snd p) && (nget L (fst p) (snd p) =? 0) then
        label_scan mask rest (S num)
          (paint (nrows_of mask) (ncols_of mask) (component mask p) (S num) L)
      else label_scan mask rest num L
  end.

Definition label (mask : array bool) : array nat * nat :=
  let R := nrows_of mask in
  let C := ncols_of mask in
  label_scan mask (cells R C) 0 (zeros R C).

(** ** [labelFlats] *)

(** The 3 by 3 kernel without its centre. *)
Definition cc : list (nat * nat) :=
  [(0,0);(0,1);(0,2);(1,0);(1,2);(2,0);(2,1);(2,2)].

(** One round of the loop:
    [out[1:-1,1:-1] += source[i:R-2+i, j:C-2+j] >= source[1:-1,1:-1]].
    Cell [(r, c)] of the inner slice meets [source[r-1+i, c-1+j]].  The
    counter is an int8 in the source; it never exceeds 8. *)
Definition count_round (source : array fval) (out : array nat)
  (ij : nat * nat) : array nat :=
  let R := nrows_of source in
  let C := ncols_of source in
  tabulate R C (fun r c =>
    if interior R C r c then
      nget out r c
      + b2n (fgeb (fget source (r - 1 + fst ij) (c - 1 + snd ij))
                  (fget source r c))
    else nget out r c).

(** [flat = out == 8] after the last round. *)
Definition flat_mask (source : array fval) : array bool :=
  let R := nrows_of source in
  let C := ncols_of source in
  let out := fold_left (count_round source) cc (zeros R C) in
  tabulate R C (fun r c => nget out r c =? 8).

Definition labelFlats (source : array fval) : array nat * nat :=
  label (flat_mask source).

(** ** [flatThing] *)

(** [A[M]] for a boolean array [M]: the selected values, in row-major order. *)
Definition masked (A : array fval) (M : array bool) : list fval :=
  map (fun p => fget A (fst p) (snd p))
      (filter (fun p => bget M (fst p) (snd p))
              (cells (nrows_of A) (ncols_of A))).

(** [flats == id]. *)
Definition flat_members (flats : array nat) (id : nat) : array bool :=
  tabulate (nrows_of flats) (ncols_of flats) (fun r c => nget flats r c =? id).

(** [~F & expand]: the cells around the flat. *)
Definition flat_ring (F : array bool) : array bool :=
  let expand := binary_dilation F in
  tabulate (nrows_of F) (ncols_of F)
    (fun r c => negb (bget F r c) && bget expand r c).

(** [elev[~F&expand] <= e_c[0]], as an array over the whole grid. *)
Definition pour_points (F : array bool) (elev : array fval) (e : fval)
  : array bool :=
  let ring := flat_ring F in
  tabulate (nrows_of F) (ncols_of F)
    (fun r c => bget ring r c && fleb (fget elev r c) e).

Definition count_true (M : array bool) : nat :=
  length (filter (fun p => bget M (fst p) (snd p))
                 (cells (nrows_of M) (ncols_of M))).

(** The three arrays have one shape in the program (they all come from
    [elev]); the result is tabulated on the shape of [accum]. *)
Definition flatThing (e_c : fval * nat) (flats : array nat)
  (accum elev : array fval) : array fval :=
  let R := nrows_of accum in
  let C := ncols_of accum in
  let F := flat_members flats (snd e_c) in
  let cSum := fsum (masked accum F) in
  let accum1 := tabulate R C (fun r c =>
                  if bget F r c then cSum else fget accum r c) in
  let ring := flat_ring F in
  let npour := count_true (pour_points F elev (fst e_c)) in
  tabulate R C (fun r c =>
    if bget ring r c then
      if fleb (fget elev r c) (fst e_c)
      then fadd (fget accum1 r c) (fdiv cSum (of_nat npour))
      else fget accum1 r c
    else fget accum1 r c).

(** ** [multipath] *)

(** [A[1:-1,1:-1].flatten('F')]: the inner cells, column by column. *)
Definition flattenF {T} (d : T) (A : array T) : list T :=
  flat_map (fun x => map (fun y => get d A (y + 1) (x + 1))
                         (seq 0 (nrows_of A - 2)))
           (seq 0 (ncols_of A - 2)).

Definition key : Type := fval * nat.

(** numpy's order on doubles, which sorts the NaNs last. *)
Definition DOUBLE_LT (a b : fval) : bool :=
  fltb a b || (is_nan b && negb (is_nan a)).

Definition DOUBLE_compare (a b : fval) : comparison :=
  if DOUBLE_LT a b then Lt else if DOUBLE_LT b a then Gt else Eq.

(** Order of the records under [order=['e','c']]. *)
Definition combo_compare (k1 k2 : key) : comparison :=
  match DOUBLE_compare (fst k1) (fst k2) with
  | Eq => Nat.compare (snd k1) (snd k2)
  | o => o
  end.

Definition key_at (combo : list key) (i : nat) : key := nth i combo (NaN, 0).

(** [numpy.argsort(..., kind='mergesort')] is a stable sort of the indices;
    the result of a stable sort does not depend on the algorithm, and the
    model inserts the indices from the last to the first, each one before the
    first index whose record is not smaller. *)
Fixpoint insert_index (combo : list key) (i : nat) (l : list nat) : list nat :=
  match l with
  | [] => [i]
  | j :: l' =>
      match combo_compare (key_at combo j) (key_at combo i) with
      | Lt => j :: insert_index combo i l'
      | _ => i :: j :: l'
      end
  end.

Definition argsort (combo : list key) : list nat :=
  fold_right (insert_index combo) [] (seq 0 (length combo)).

(** Truth value of a record of the structured array: some field is not zero. *)
Definition void_nonzero (k : key) : bool :=
  fnonzero (fst k) || negb (snd k =? 0).

(** Truth value of [curC], which is [None] or a record. *)
Definition truthy (curC : option key) : bool :=
  match curC with
  | None => false
  | Some k => void_nonzero k
  end.

Definition win (elev : array fval) (y x i j : nat) : fval :=
  fget elev (y + i) (x + j).

(** [diff = np.where(win < win[1,1], win[1,1] - win, 0)]. *)
Definition diff (elev : array fval) (y x i j : nat) : fval :=
  if fltb (win elev y x i j) (win elev y x 1 1)
  then fsub (win elev y x 1 1) (win elev y x i j)
  else f0.

(** [diff.sum()]. *)
Definition diff_sum (elev : array fval) (y x : nat) : fval :=
  fsum (map (fun d => diff elev y x (fst d) (snd d)) offsets3).

(** [accum[y:y+3,x:x+3] += diff / diff.sum() * accum[y+1,x+1]]; the right-hand
    side is evaluated before the slice is updated. *)
Definition distribute (elev accum : array fval) (y x : nat) : array fval :=
  let total := diff_sum elev y x in
  let centre := fget accum (y + 1) (x + 1) in
  tabulate (nrows_of accum) (ncols_of accum) (fun r c =>
    if (y <=? r) && (r <? y + 3) && (x <=? c) && (c <? x + 3) then
      fadd (fget accum r c)
           (fmul (fdiv (diff elev y x (r - y) (c - x)) total) centre)
    else fget accum r c).

(** The state of the loop: the accumulation and [curC]. *)
Definition state : Type := array fval * option key.

Definition sweep_step (elev : array fval) (flats : array nat)
  (combo : list key) (nrows : nat) (st : state) (i : nat) : state :=
  let (accum, curC) := st in
  let ci := key_at combo i in
  if negb (snd ci =? 0) then
    match curC with
    | Some k =>
        if void_nonzero k && negb (snd k =? snd ci)
        then (flatThing k flats accum elev, Some ci)
        else (accum, Some ci)
    | None => (accum, Some ci)
    end
  else
    let st1 :=
      match curC with
      | Some k =>
          if void_nonzero k then (flatThing k flats accum elev, None)
          else (accum, curC)
      | None => (accum, curC)
      end in
    let y := i mod nrows in
    let x := i / nrows in
    (distribute elev (fst st1) y x, snd st1).

Definition combo_of (elev : array fval) : list key :=
  let flats := fst (labelFlats elev) in
  combine (flattenF NaN elev) (flattenF 0 flats).

(** [indexArray[::-1]]. *)
Definition visiting_order (elev : array fval) : list nat :=
  rev (argsort (combo_of elev)).

(** The state after the first [n] rounds of the loop. *)
Definition run (elev : array fval) (n : nat) : state :=
  fold_left
    (sweep_step elev (fst (labelFlats elev)) (combo_of elev)
                (nrows_of elev - 2))
    (firstn n (visiting_order elev))
    (ones_like elev, None).

Definition sweep (elev : array fval) : state :=
  run elev (length (visiting_order elev)).

Definition multipath (elev : array fval) : array fval := fst (sweep elev).

(** ** Reading values back *)

Definition qv (n d : Z) : fval :=
  Fin (Q2Qc (Qmake n (Z.to_pos d))).

Definition array_eqb (A B : array fval) : bool :=
  (length A =? length B)
  && forallb (fun rs =>
       (length (fst rs) =? length (snd rs))
       && forallb (fun ab => fval_eqb (fst ab) (snd ab))
                  (combine (fst rs) (snd rs)))
     (combine A B).


(** ** Vocabulary of the statements *)

(** Two cells whose rows and columns differ by at most one: a cell of the
    3 by 3 window of the other (the cell itself included). *)
Definition near8 (p q : nat * nat) : Prop :=
  fst p <= fst q + 1 /\ fst q <= fst p + 1 /\
  snd p <= snd q + 1 /\ snd q <= snd p + 1.

(** The cells selected by a boolean array, in row-major order. *)
Definition true_cells (M : array bool) : list (nat * nat) :=
  filter (fun p => bget M (fst p) (snd p))
         (cells (nrows_of M) (ncols_of M)).

(** The zonal sum of region [id]: [accum[flats == id].sum()]. *)
Definition zonal_sum (flats : array nat) (id : nat) (accum : array fval)
  : fval :=
  fsum (masked accum (flat_members flats id)).

Definition Qc_of_nat (n : nat) : Qc := Q2Qc (inject_Z (Z.of_nat n)).

(** The rational carried by a finite value. *)
Definition fin_part (v : fval) : Qc :=
  match v with Fin q => q | _ => Qc0 end.

(** The exact sum of a 3 by 3 window of rationals, in row-major order. *)
Definition window_sum (g : nat -> nat -> Qc) : Qc :=
  fold_left Qcplus (map (fun d => g (fst d) (snd d)) offsets3) Qc0.

(** A foreground cell of a boolean array. *)
Definition fg (mask : array bool) (p : nat * nat) : Prop :=
  fst p < nrows_of mask /\ snd p < ncols_of mask /\
  bget mask (fst p) (snd p) = true.

(** Two cells with property [P] joined by a chain of cells with property [P]
    in which consecutive cells are 8-neighbours. *)
Inductive chain (P : nat * nat -> Prop) (p : nat * nat)
  : nat * nat -> Prop :=
| chain_here : P p -> chain P p p
| chain_step q r : chain P p q -> near8 q r -> P r -> chain P p r.

Definition connected (mask : array bool) : nat * nat -> nat * nat -> Prop :=
  chain (fg mask).

(** The states of a flood: the seed grown [k] times. *)
Definition flood (mask : array bool) (p : nat * nat) (k : nat) : array bool :=
  Nat.iter k (grow mask) (single (nrows_of mask) (ncols_of mask) p).

(** A flood that one more round does not extend. *)
Definition settled (mask : array bool) (p : nat * nat) (k : nat) : Prop :=
  forall q, bget (flood mask p (S k)) (fst q) (snd q) = true ->
            bget (flood mask p k) (fst q) (snd q) = true.

(** What a partial labelling with [num] regions satisfies while the scan
    runs: only foreground cells are labelled, with ids from 1 to [num], all
    in use; two labelled cells share their id exactly when they are
    connected; and a labelled region is labelled as a whole. *)
Record labelled (mask : array bool) (num : nat) (L : array nat) : Prop := {
  lab_fg : forall q, nget L (fst q) (snd q) <> 0 -> fg mask q;
  lab_le : forall q, nget L (fst q) (snd q) <= num;
  lab_conn : forall q q',
    nget L (fst q) (snd q) <> 0 -> nget L (fst q') (snd q') <> 0 ->
    (nget L (fst q) (snd q) = nget L (fst q') (snd q')
     <-> connected mask q q');
  lab_closed : forall q q',
    nget L (fst q) (snd q) <> 0 -> connected mask q q' ->
    nget L (fst q') (snd q') <> 0;
  lab_used : forall id, 1 <= id <= num ->
    exists q, nget L (fst q) (snd q) = id
}.

(** The number of cells of the kernel [l] around [(r, c)] that are at least
    as high as [(r, c)]. *)
Definition neighbours_ge (source : array fval) (r c : nat)
  (l : list (nat * nat)) : nat :=
  fold_right (fun ij n =>
    b2n (fgeb (fget source (r - 1 + fst ij) (c - 1 + snd ij))
              (fget source r c)) + n) 0 l.

(** A flat candidate: an inner cell none of whose 8 neighbours is lower
    (every neighbour compares [>=] to it). *)
Definition flat_candidate (source : array fval) (p : nat * nat) : Prop :=
  interior (nrows_of source) (ncols_of source) (fst p) (snd p) = true /\
  forall q, near8 p q -> q <> p ->
    fgeb (fget source (fst q) (snd q)) (fget source (fst p) (snd p)) = true.

(** The cell whose 3 by 3 window starts at [(y, x)], for the index [i] of
    the flattened inner array: [y = i % nrows], [x = i / nrows], and the
    window is centred on [(y + 1, x + 1)]. *)
Definition cell_of_index (nrows i : nat) : nat * nat :=
  (i mod nrows + 1, i / nrows + 1).

(** The order of the sort on records: not greater. *)
Definition key_le (k1 k2 : key) : Prop := combo_compare k1 k2 <> Gt.

(** A value that is a non-negative real number. *)
Definition nonneg (v : fval) : Prop :=
  exists a, v = Fin a /\ (Qc0 <= a)%Qc.

(** A value that is a non-negative real number or [+inf]. *)
Definition nonneg_or_inf (v : fval) : Prop :=
  match v with
  | Fin q => (Qc0 <= q)%Qc
  | PInf => True
  | _ => False
  end.

Definition nonneg_grid (A : array fval) : Prop :=
  forall r c, r < nrows_of A -> c < ncols_of A -> nonneg (fget A r c).

(** Cell by cell, [B] is at least [A]. *)
Definition grid_le (A B : array fval) : Prop :=
  forall r c, r < nrows_of A -> c < ncols_of A ->
    fleb (fget A r c) (fget B r c) = true.

Definition same_shape {T U} (A : array T) (B : array U) : Prop :=
  nrows_of A = nrows_of B /\ ncols_of A = ncols_of B.

(** Every ordinary cell that the sweep visits has a total downslope drop
    that is a strictly positive real number. *)
Definition positive_drops (elev : array fval) : Prop :=
  forall i, In i (visiting_order elev) ->
    snd (key_at (combo_of elev) i) = 0 ->
    exists t,
      diff_sum elev (i mod (nrows_of elev - 2)) (i / (nrows_of elev - 2))
      = Fin t /\ (Qc0 < t)%Qc.

(** A bound under which float64 arithmetic on drops cannot overflow: half
    of the range, [2^1023], so that the rounded sum of the nine drops of a
    window stays finite when their exact sum is at most the bound. *)
Definition float_bound : Qc := Q2Qc (inject_Z (2 ^ 1023)).

(** Every ordinary cell that the sweep visits has a total downslope drop
    that is strictly positive and finite, with no overflow. *)
Definition tame_drops (elev : array fval) : Prop :=
  forall i, In i (visiting_order elev) ->
    snd (key_at (combo_of elev) i) = 0 ->
    exists t,
      diff_sum elev (i mod (nrows_of elev - 2)) (i / (nrows_of elev - 2))
      = Fin t /\ (Qc0 < t)%Qc /\ (t <= float_bound)%Qc.

(** A grid without NaN (infinite elevations are allowed). *)
Definition no_nan_grid (A : array fval) : Prop :=
  forall r c, r < nrows_of A -> c < ncols_of A -> is_nan (fget A r c) = false.

(** A value that is a strictly positive real number or [+inf]. *)
Definition pos_or_inf (v : fval) : Prop :=
  match v with
  | Fin q => (Qc0 < q)%Qc
  | PInf => True
  | _ => False
  end.

(** ** Sample grids *)

Definition grid_of_Z (l : list (list Z)) : array fval :=
  map (map (fun z => qv z 1)) l.

(** A ridge cell above a flat of two cells that drains through the border
    cell at its right end; the flat holds the lowest inner cells. *)
Definition E_ridge : array fval :=
  grid_of_Z [[9;9;9;9;9];
             [9;7;5;5;5];
             [9;9;9;9;9]]%Z.

(** One inner cell surrounded by higher ground: a flat without pour point. *)
Definition E_sink : array fval :=
  grid_of_Z [[9;9;9];
             [9;5;9];
             [9;9;9]]%Z.

(** One inner cell above a border cell at [-inf]. *)
Definition E_minf : array fval :=
  [[qv 5 1; qv 5 1; qv 5 1];
   [qv 5 1; qv 5 1; qv 5 1];
   [qv 5 1; qv 5 1; NInf]].

(** One inner cell without elevation (a NaN). *)
Definition E_nan : array fval :=
  [[qv 5 1; qv 5 1; qv 5 1];
   [qv 5 1; NaN;    qv 5 1];
   [qv 5 1; qv 5 1; qv 5 1]].

(** The order in which a stable ascending sort leaves two indices: by
    record, and by index among equal records. *)
Definition stable_before (combo : list key) (a b : nat) : Prop :=
  key_le (key_at combo a) (key_at combo b)
  /\ (key_at combo a = key_at combo b -> a < b).
(** * Properties *)

(** ** Arrays *)

Lemma nrows_tabulate T R C (f : nat -> nat -> T) :
  nrows_of (tabulate R C f) = R.
Proof. unfold nrows_of, tabulate. now rewrite length_map, length_seq. Qed.

Lemma ncols_tabulate T R C (f : nat -> nat -> T) :
  0 < R -> ncols_of (tabulate R C f) = C.
Proof.
  unfold ncols_of, tabulate. destruct R as [|R]; [lia|]. intros _.
  simpl. now rewrite length_map, length_seq.
Qed.

Lemma ncols_tabulate_same T U (A : array T) (f : nat -> nat -> U) :
  ncols_of (tabulate (nrows_of A) (ncols_of A) f) = ncols_of A.
Proof.
  destruct A as [|row A]; [reflexivity|].
  apply ncols_tabulate. simpl. lia.
Qed.

Lemma get_tabulate T (d : T) R C f r c :
  r < R -> c < C -> get d (tabulate R C f) r c = f r c.
Proof.
  intros Hr Hc. unfold get, tabulate.
  rewrite (nth_indep _ [] (map (fun c => f 0 c) (seq 0 C)))
    by now rewrite length_map, length_seq.
  rewrite (map_nth (fun r => map (fun c => f r c) (seq 0 C)) (seq 0 R) 0 r).
  rewrite seq_nth by assumption. simpl.
  rewrite (nth_indep _ d (f r 0)) by now rewrite length_map, length_seq.
  rewrite (map_nth (fun c => f r c) (seq 0 C) 0 c).
  now rewrite seq_nth.
Qed.

Lemma get_tabulate_out T (d : T) R C f r c :
  R <= r \/ C <= c -> get d (tabulate R C f) r c = d.
Proof.
  intros H. unfold get, tabulate.
  destruct (Nat.lt_ge_cases r R) as [Hr|Hr].
  - rewrite (nth_indep _ [] (map (fun c => f 0 c) (seq 0 C)))
      by now rewrite length_map, length_seq.
    rewrite (map_nth (fun r => map (fun c => f r c) (seq 0 C)) (seq 0 R) 0 r).
    apply nth_overflow. rewrite length_map, length_seq. lia.
  - rewrite (nth_overflow _ []) by now rewrite length_map, length_seq.
    now destruct c.
Qed.

Lemma get_tabulate_box T (d : T) R C f r c :
  get d (tabulate R C f) r c = if in_box R C r c then f r c else d.
Proof.
  unfold in_box.
  destruct (Nat.ltb_spec r R); destruct (Nat.ltb_spec c C); simpl;
    first [ now apply get_tabulate | apply get_tabulate_out; lia ].
Qed.

Lemma in_cells R C r c : In (r, c) (cells R C) <-> r < R /\ c < C.
Proof.
  unfold cells. rewrite in_flat_map. split.
  - intros (r' & Hr & Hin). apply in_map_iff in Hin.
    destruct Hin as (c' & Heq & Hc). inversion Heq; subst.
    apply in_seq in Hr. apply in_seq in Hc. lia.
  - intros [Hr Hc]. exists r. split; [apply in_seq; lia|].
    apply in_map_iff. exists c. split; [reflexivity|apply in_seq; lia].
Qed.

Lemma NoDup_cells_from C s R :
  NoDup (flat_map (fun r => map (fun c => (r, c)) (seq 0 C)) (seq s R)).
Proof.
  revert s. induction R as [|R IH]; intros s; simpl; [constructor|].
  apply NoDup_app.
  - apply Finite.Injective_map_NoDup; [|apply seq_NoDup].
    intros a b H. now inversion H.
  - apply IH.
  - intros [r c] H1 H2. apply in_map_iff in H1.
    destruct H1 as (c' & Heq & _). inversion Heq; subst.
    apply in_flat_map in H2. destruct H2 as (r' & Hr' & Hin).
    apply in_map_iff in Hin. destruct Hin as (c'' & Heq' & _).
    inversion Heq'; subst. apply in_seq in Hr'. lia.
Qed.

Lemma NoDup_cells R C : NoDup (cells R C).
Proof. apply NoDup_cells_from. Qed.

Lemma length_cells_from C s R :
  length (flat_map (fun r => map (fun c => (r, c)) (seq 0 C)) (seq s R))
  = R * C.
Proof.
  revert s. induction R as [|R IH]; intros s; simpl; [reflexivity|].
  now rewrite length_app, length_map, length_seq, IH.
Qed.

Lemma length_cells R C : length (cells R C) = R * C.
Proof. apply length_cells_from. Qed.

Lemma bget_tabulate R C f r c :
  bget (tabulate R C f) r c = in_box R C r c && f r c.
Proof.
  unfold bget. rewrite get_tabulate_box. now destruct (in_box R C r c).
Qed.

Lemma fget_tabulate R C f r c :
  r < R -> c < C -> fget (tabulate R C f) r c = f r c.
Proof. apply get_tabulate. Qed.

Lemma nget_tabulate R C f r c :
  nget (tabulate R C f) r c = if in_box R C r c then f r c else 0.
Proof. apply get_tabulate_box. Qed.

Lemma bget_in_box R C f r c :
  bget (tabulate R C f) r c = true -> r < R /\ c < C.
Proof.
  intros H. rewrite bget_tabulate in H. unfold in_box in H.
  apply andb_true_iff in H. destruct H as [H _].
  apply andb_true_iff in H. destruct H as [H1 H2].
  apply Nat.ltb_lt in H1. apply Nat.ltb_lt in H2. now split.
Qed.

Lemma in_box_true R C r c : r < R -> c < C -> in_box R C r c = true.
Proof.
  intros Hr Hc. unfold in_box.
  apply andb_true_iff. split; now apply Nat.ltb_lt.
Qed.

(** ** [flatThing], cell by cell *)

Section FlatThing.

Variables (e_c : key) (flats : array nat) (accum elev : array fval).

Let F := flat_members flats (snd e_c).
Let cSum := fsum (masked accum F).
Let P := pour_points F elev (fst e_c).

Lemma pour_points_ring r c :
  bget P r c = bget (flat_ring F) r c && fleb (fget elev r c) (fst e_c).
Proof.
  unfold P, pour_points. rewrite bget_tabulate.
  destruct (in_box _ _ r c) eqn:Hbox; [reflexivity|].
  unfold flat_ring. rewrite bget_tabulate, Hbox. reflexivity.
Qed.

Lemma ring_not_member r c :
  bget (flat_ring F) r c = true -> bget F r c = false.
Proof.
  unfold flat_ring. rewrite bget_tabulate. intros H.
  apply andb_true_iff in H. destruct H as [_ H].
  apply andb_true_iff in H. destruct H as [H _].
  now apply negb_true_iff in H.
Qed.

Lemma flatThing_at r c :
  r < nrows_of accum -> c < ncols_of accum ->
  fget (flatThing e_c flats accum elev) r c =
    if bget F r c then cSum
    else if bget P r c
         then fadd (fget accum r c) (fdiv cSum (of_nat (count_true P)))
         else fget accum r c.
Proof.
  intros Hr Hc. unfold flatThing, fget at 1. cbv zeta.
  rewrite get_tabulate by assumption.
  fold F. fold cSum. fold P.
  rewrite !fget_tabulate by assumption.
  rewrite pour_points_ring.
  destruct (bget (flat_ring F) r c) eqn:Hring.
  - rewrite (ring_not_member _ _ Hring). simpl.
    destruct (fleb (fget elev r c) (fst e_c)); reflexivity.
  - simpl. destruct (bget F r c); reflexivity.
Qed.

End FlatThing.

(** ** Values *)

Lemma Qc_eqb_eq a b : Qc_eqb a b = true <-> a = b.
Proof.
  unfold Qc_eqb. rewrite Qceq_alt.
  destruct (a ?= b)%Qc; split; congruence.
Qed.

Lemma Qc_ltb_lt a b : Qc_ltb a b = true <-> (a < b)%Qc.
Proof.
  unfold Qc_ltb. rewrite Qclt_alt.
  destruct (a ?= b)%Qc; split; congruence.
Qed.

Lemma Qc_of_nat_S n : Qc_of_nat (S n) = (Qc_of_nat n + Qc1)%Qc.
Proof.
  apply Qc_is_canon. unfold Qc_of_nat, Qc1, Qcplus, Q2Qc, this.
  rewrite !Qred_correct. unfold Qeq, Qplus, inject_Z. simpl.
  lia.
Qed.

Lemma Qc_of_nat_pos n : 0 < n -> (Qc0 < Qc_of_nat n)%Qc.
Proof.
  intros H. unfold Qclt, Qc_of_nat, Qc0, Q2Qc, this.
  rewrite !Qred_correct. unfold Qlt, inject_Z. simpl. lia.
Qed.

Lemma Qc_of_nat_nonzero n : 0 < n -> Qc_of_nat n <> Qc0.
Proof.
  intros H Heq. apply Qc_of_nat_pos in H. rewrite Heq in H.
  now apply Qclt_not_eq in H.
Qed.

Lemma fsum_const_from q n a :
  fold_left fadd (repeat (Fin q) n) (Fin a)
  = Fin (a + Qc_of_nat n * q)%Qc.
Proof.
  revert a. induction n as [|n IH]; intros a.
  - simpl. f_equal. change (Qc_of_nat 0) with Qc0. unfold Qc0. ring.
  - simpl. rewrite IH. f_equal. rewrite Qc_of_nat_S. unfold Qc1. ring.
Qed.

Lemma fsum_const q n : fsum (repeat (Fin q) n) = Fin (Qc_of_nat n * q)%Qc.
Proof.
  unfold fsum, f0. rewrite fsum_const_from. f_equal. unfold Qc0. ring.
Qed.

Lemma fdiv_of_nat s n :
  0 < n -> fdiv (Fin s) (of_nat n) = Fin (s / Qc_of_nat n)%Qc.
Proof.
  intros H. unfold of_nat. fold (Qc_of_nat n). simpl.
  destruct (Qc_eqb (Qc_of_nat n) Qc0) eqn:E; [|reflexivity].
  apply Qc_eqb_eq in E. now apply Qc_of_nat_nonzero in E.
Qed.

Lemma map_const_repeat T U (v : U) (l : list T) :
  map (fun _ => v) l = repeat v (length l).
Proof. induction l; simpl; congruence. Qed.

(** ** Dilation *)

Lemma binary_dilation_spec S r c :
  bget (binary_dilation S) r c = true <->
  r < nrows_of S /\ c < ncols_of S /\
  exists q, near8 (r, c) q /\ bget S (fst q) (snd q) = true.
Proof.
  unfold binary_dilation. rewrite bget_tabulate, andb_true_iff.
  unfold in_box. rewrite andb_true_iff, !Nat.ltb_lt, existsb_exists.
  split.
  - intros [[Hr Hc] ([dr dc] & Hin & Hs)]. split; [|split]; try assumption.
    unfold shifted in Hs. simpl in Hs.
    destruct ((r + dr <? 1) || (c + dc <? 1)) eqn:G; [discriminate|].
    apply orb_false_iff in G. destruct G as [G1 G2].
    apply Nat.ltb_ge in G1. apply Nat.ltb_ge in G2.
    exists (r + dr - 1, c + dc - 1). split; [|exact Hs].
    unfold near8; simpl.
    assert (dr <= 2 /\ dc <= 2) as [? ?].
    { simpl in Hin. repeat (destruct Hin as [Hin|Hin];
        [inversion Hin; subst; lia|]). contradiction. }
    lia.
  - intros (Hr & Hc & [r' c'] & Hn & Hs). split; [now split|].
    unfold near8 in Hn; simpl in Hn, Hs.
    exists (r' + 1 - r, c' + 1 - c). split.
    + assert (Hdr : r' + 1 - r = 0 \/ r' + 1 - r = 1 \/ r' + 1 - r = 2) by lia.
      assert (Hdc : c' + 1 - c = 0 \/ c' + 1 - c = 1 \/ c' + 1 - c = 2) by lia.
      destruct Hdr as [-> | [-> | ->]]; destruct Hdc as [-> | [-> | ->]];
        simpl; tauto.
    + unfold shifted. simpl.
      replace (r + (r' + 1 - r) - 1) with r' by lia.
      replace (c + (c' + 1 - c) - 1) with c' by lia.
      destruct (Nat.ltb_spec (r + (r' + 1 - r)) 1); [lia|].
      destruct (Nat.ltb_spec (c + (c' + 1 - c)) 1); [lia|].
      exact Hs.
Qed.

Lemma nrows_flat_members flats id :
  nrows_of (flat_members flats id) = nrows_of flats.
Proof. apply nrows_tabulate. Qed.

Lemma ncols_flat_members flats id :
  ncols_of (flat_members flats id) = ncols_of flats.
Proof. apply ncols_tabulate_same. Qed.

Lemma flat_members_at flats id r c :
  bget (flat_members flats id) r c
  = in_box (nrows_of flats) (ncols_of flats) r c && (nget flats r c =? id).
Proof. unfold flat_members. now rewrite bget_tabulate. Qed.

Lemma flat_ring_spec F r c :
  bget (flat_ring F) r c = true <->
  r < nrows_of F /\ c < ncols_of F /\ bget F r c = false /\
  exists q, near8 (r, c) q /\ bget F (fst q) (snd q) = true.
Proof.
  unfold flat_ring. rewrite bget_tabulate, !andb_true_iff, negb_true_iff.
  rewrite binary_dilation_spec. unfold in_box.
  rewrite andb_true_iff, !Nat.ltb_lt. tauto.
Qed.

Lemma in_true_cells M r c :
  In (r, c) (true_cells M) <->
  r < nrows_of M /\ c < ncols_of M /\ bget M r c = true.
Proof.
  unfold true_cells. rewrite filter_In, in_cells. simpl. tauto.
Qed.

Lemma count_true_cells M : count_true M = length (true_cells M).
Proof. reflexivity. Qed.

Lemma count_true_zero T (A : array T) f r c :
  count_true (tabulate (nrows_of A) (ncols_of A) f) = 0 ->
  bget (tabulate (nrows_of A) (ncols_of A) f) r c = false.
Proof.
  intros H. destruct (bget _ r c) eqn:E; [|reflexivity].
  rewrite count_true_cells in H. apply length_zero_iff_nil in H.
  assert (Hin : In (r, c) (true_cells (tabulate (nrows_of A) (ncols_of A) f))).
  { apply in_true_cells. rewrite nrows_tabulate, ncols_tabulate_same.
    destruct (bget_in_box _ _ _ _ _ E). auto. }
  rewrite H in Hin. contradiction.
Qed.

(** ** Deciding equalities of values and arrays *)

Lemma fval_eqb_eq a b : fval_eqb a b = true -> a = b.
Proof.
  destruct a as [x| | |], b as [y| | |]; simpl; try discriminate; try reflexivity.
  intros H. f_equal. apply Qc_is_canon. now apply Qeq_bool_iff.
Qed.

Lemma forallb_combine_eq (l1 l2 : list fval) :
  length l1 = length l2 ->
  forallb (fun ab => fval_eqb (fst ab) (snd ab)) (combine l1 l2) = true ->
  l1 = l2.
Proof.
  revert l2. induction l1 as [|a l1 IH]; intros [|b l2]; simpl;
    try discriminate; try reflexivity.
  intros Hl H. apply andb_true_iff in H. destruct H as [H1 H2].
  f_equal; [now apply fval_eqb_eq|]. apply IH; [lia|assumption].
Qed.

Lemma array_eqb_eq (A B : array fval) : array_eqb A B = true -> A = B.
Proof.
  unfold array_eqb. rewrite andb_true_iff, Nat.eqb_eq. intros [Hl H].
  revert B Hl H. induction A as [|a A IH]; intros [|b B]; simpl;
    try discriminate; try reflexivity.
  intros Hl H. apply andb_true_iff in H. destruct H as [H1 H2].
  apply andb_true_iff in H1. destruct H1 as [H1 H1'].
  apply Nat.eqb_eq in H1.
  f_equal; [now apply forallb_combine_eq|]. apply IH; [lia|assumption].
Qed.

Lemma fadd_fin a b : is_fin a = true -> is_fin b = true ->
  is_fin (fadd a b) = true.
Proof. destruct a, b; simpl; congruence. Qed.

Lemma fsum_fin l :
  Forall (fun a => is_fin a = true) l -> is_fin (fsum l) = true.
Proof.
  unfold fsum. generalize f0 (eq_refl : is_fin f0 = true).
  induction l as [|a l IH]; intros acc Hacc Hl; simpl; [assumption|].
  inversion Hl; subst. apply IH; [now apply fadd_fin|assumption].
Qed.

Lemma zonal_sum_fin flats id accum :
  (forall r c, r < nrows_of accum -> c < ncols_of accum ->
               is_fin (fget accum r c) = true) ->
  is_fin (zonal_sum flats id accum) = true.
Proof.
  intros H. unfold zonal_sum, masked. apply fsum_fin.
  apply Forall_forall. intros v Hv. apply in_map_iff in Hv.
  destruct Hv as ([r c] & <- & Hin). apply filter_In in Hin.
  destruct Hin as [Hin _]. apply in_cells in Hin. now apply H.
Qed.

(** ** The window of an ordinary cell *)

Lemma fltb_irrefl a : fltb a a = false.
Proof.
  destruct a as [x| | |]; simpl; try reflexivity.
  unfold Qc_ltb. replace (x ?= x)%Qc with Eq; [reflexivity|].
  symmetry. now apply Qceq_alt.
Qed.

Lemma is_fin_Fin v : is_fin v = true -> v = Fin (fin_part v).
Proof. destruct v; simpl; congruence. Qed.

Lemma diff_centre elev y x : diff elev y x 1 1 = f0.
Proof. unfold diff. now rewrite fltb_irrefl. Qed.

Lemma diff_fin elev y x i j :
  is_fin (win elev y x i j) = true -> is_fin (win elev y x 1 1) = true ->
  is_fin (diff elev y x i j) = true.
Proof.
  unfold diff. intros Hi Hc.
  destruct (fltb _ _); [|reflexivity].
  destruct (win elev y x i j), (win elev y x 1 1); simpl in *; congruence.
Qed.

Lemma diff_nonneg elev y x i j :
  is_fin (win elev y x i j) = true -> is_fin (win elev y x 1 1) = true ->
  (Qc0 <= fin_part (diff elev y x i j))%Qc.
Proof.
  unfold diff. intros Hi Hc.
  destruct (fltb _ _) eqn:E; [|apply Qcle_refl].
  destruct (win elev y x i j) as [w| | |], (win elev y x 1 1) as [m| | |];
    simpl in *; try congruence.
  apply Qc_ltb_lt in E. apply Qclt_le_weak.
  unfold Qclt, Qcle in *. unfold Qc0, Qcplus, Qcopp, Q2Qc, this in *.
  rewrite !Qred_correct. lra.
Qed.

Lemma fsum_window (g : nat -> nat -> Qc) :
  fsum (map (fun d => Fin (g (fst d) (snd d))) offsets3)
  = Fin (window_sum g).
Proof. reflexivity. Qed.

Lemma diff_sum_fin elev y x :
  (forall i j, i < 3 -> j < 3 -> is_fin (win elev y x i j) = true) ->
  diff_sum elev y x
  = Fin (window_sum (fun i j => fin_part (diff elev y x i j))).
Proof.
  intros H. unfold diff_sum. rewrite <- fsum_window. f_equal.
  apply map_ext_in. intros [i j] Hin. simpl.
  apply is_fin_Fin.
  assert (i < 3 /\ j < 3) as [? ?].
  { simpl in Hin. repeat (destruct Hin as [Hin|Hin];
      [inversion Hin; subst; lia|]). contradiction. }
  apply diff_fin; apply H; lia.
Qed.

Lemma in_window_true y x i j :
  i < 3 -> j < 3 ->
  (y <=? y + i) && (y + i <? y + 3) && (x <=? x + j) && (x + j <? x + 3)
  = true.
Proof.
  intros Hi Hj. rewrite !andb_true_iff, !Nat.leb_le, !Nat.ltb_lt. lia.
Qed.

Lemma distribute_at elev accum y x r c :
  r < nrows_of accum -> c < ncols_of accum ->
  fget (distribute elev accum y x) r c
  = if (y <=? r) && (r <? y + 3) && (x <=? c) && (c <? x + 3)
    then fadd (fget accum r c)
           (fmul (fdiv (diff elev y x (r - y) (c - x)) (diff_sum elev y x))
                 (fget accum (y + 1) (x + 1)))
    else fget accum r c.
Proof.
  intros Hr Hc. unfold distribute. cbv zeta.
  now rewrite fget_tabulate by assumption.
Qed.

Lemma distribute_window elev accum y x i j :
  y + i < nrows_of accum -> x + j < ncols_of accum -> i < 3 -> j < 3 ->
  fget (distribute elev accum y x) (y + i) (x + j)
  = fadd (fget accum (y + i) (x + j))
      (fmul (fdiv (diff elev y x i j) (diff_sum elev y x))
            (fget accum (y + 1) (x + 1))).
Proof.
  intros Hr Hc Hi Hj. rewrite distribute_at by assumption.
  rewrite in_window_true by assumption.
  now replace (y + i - y) with i by lia; replace (x + j - x) with j by lia.
Qed.

Lemma fltb_f0_Fin t : fltb f0 (Fin t) = true -> (Qc0 < t)%Qc.
Proof. simpl. apply Qc_ltb_lt. Qed.

Lemma Qc_pos_eqb t : (Qc0 < t)%Qc -> Qc_eqb t Qc0 = false.
Proof.
  intros H. destruct (Qc_eqb t Qc0) eqn:E; [|reflexivity].
  apply Qc_eqb_eq in E. subst. now apply Qclt_not_eq in H.
Qed.

Lemma Qc_pos_neq t : (Qc0 < t)%Qc -> t <> Q2Qc 0.
Proof. intros H E. fold Qc0 in E. subst. now apply Qclt_not_eq in H. Qed.

Lemma share_exact d t a :
  (Qc0 < t)%Qc ->
  fmul (fdiv (Fin d) (Fin t)) (Fin a) = fdiv (fmul (Fin a) (Fin d)) (Fin t).
Proof.
  intros H. simpl. rewrite (Qc_pos_eqb H). simpl. f_equal. field.
  now apply Qc_pos_neq.
Qed.

Lemma window_shares_sum (d : nat -> nat -> Qc) a :
  (Qc0 < window_sum d)%Qc ->
  window_sum (fun i j => a * d i j / window_sum d)%Qc = a.
Proof.
  intros H. apply Qc_pos_neq in H. revert H.
  unfold window_sum. simpl. unfold Qc0.
  intros H. field. intros E. apply H. etransitivity; [|exact E]. ring.
Qed.

(** ** Connected regions *)

Lemma near8_refl p : near8 p p.
Proof. unfold near8. lia. Qed.

Lemma near8_sym p q : near8 p q -> near8 q p.
Proof. unfold near8. lia. Qed.

Lemma connected_here mask p : fg mask p -> connected mask p p.
Proof. apply chain_here. Qed.

Lemma connected_step mask p q r :
  connected mask p q -> near8 q r -> fg mask r -> connected mask p r.
Proof. apply chain_step. Qed.

Lemma connected_fg_l mask p q : connected mask p q -> fg mask p.
Proof. induction 1; assumption. Qed.

Lemma connected_fg_r mask p q : connected mask p q -> fg mask q.
Proof. induction 1; assumption. Qed.

Lemma connected_trans mask p q r :
  connected mask p q -> connected mask q r -> connected mask p r.
Proof.
  intros Hpq Hqr. induction Hqr as [Hq | s r Hqs IH Hn Hr].
  - assumption.
  - apply connected_step with s; auto.
Qed.

Lemma connected_sym mask p q : connected mask p q -> connected mask q p.
Proof.
  induction 1 as [Hp | q r Hpq IH Hn Hr].
  - now constructor.
  - apply connected_trans with q; [|assumption].
    apply connected_step with r.
    + now constructor.
    + now apply near8_sym.
    + now apply connected_fg_r with p.
Qed.

Lemma filter_length_le T (f g : T -> bool) l :
  (forall x, In x l -> f x = true -> g x = true) ->
  length (filter f l) <= length (filter g l).
Proof.
  induction l as [|a l IH]; intros H; simpl; [lia|].
  assert (IH' : length (filter f l) <= length (filter g l)).
  { apply IH. intros x Hx. apply H. now right. }
  destruct (f a) eqn:Ef.
  - rewrite (H a (or_introl eq_refl) Ef). simpl. lia.
  - destruct (g a); simpl; lia.
Qed.

Lemma filter_length_lt T (f g : T -> bool) l :
  (forall x, In x l -> f x = true -> g x = true) ->
  (exists x, In x l /\ f x = false /\ g x = true) ->
  length (filter f l) < length (filter g l).
Proof.
  induction l as [|a l IH]; intros H (x & Hin & Hf & Hg); [contradiction|].
  assert (Hle : length (filter f l) <= length (filter g l)).
  { apply filter_length_le. intros y Hy. apply H. now right. }
  simpl. destruct Hin as [->|Hin].
  - rewrite Hf, Hg. simpl. lia.
  - assert (length (filter f l) < length (filter g l)).
    { apply IH; [intros y Hy; apply H; now right|]. now exists x. }
    destruct (f a) eqn:Ef.
    + rewrite (H a (or_introl eq_refl) Ef). simpl. lia.
    + destruct (g a); simpl; lia.
Qed.

Lemma forallb_false_ex T (f : T -> bool) l :
  forallb f l = false -> exists x, In x l /\ f x = false.
Proof.
  induction l as [|a l IH]; simpl; [discriminate|].
  destruct (f a) eqn:E; simpl.
  - intros H. destruct (IH H) as (x & Hx & Hfx). exists x. auto.
  - intros _. exists a. auto.
Qed.

Section Flood.

Variable mask : array bool.
Variable p : nat * nat.
Hypothesis p_fg : fg mask p.

Let R := nrows_of mask.
Let C := ncols_of mask.

Notation "S |= q" := (bget S (fst q) (snd q) = true) (at level 70).

Lemma flood_S k : flood mask p (S k) = grow mask (flood mask p k).
Proof. reflexivity. Qed.

Lemma flood_shape k :
  nrows_of (flood mask p k) = R /\ ncols_of (flood mask p k) = C.
Proof.
  destruct k as [|k].
  - unfold flood, single. simpl.
    split; [apply nrows_tabulate | apply ncols_tabulate_same].
  - rewrite flood_S. unfold grow.
    split; [apply nrows_tabulate | apply ncols_tabulate_same].
Qed.

Lemma single_spec q :
  single R C p |= q <-> q = p /\ fst p < R /\ snd p < C.
Proof.
  unfold single. rewrite bget_tabulate, !andb_true_iff. unfold in_box.
  rewrite andb_true_iff, !Nat.ltb_lt, !Nat.eqb_eq.
  destruct p as [pr pc], q as [qr qc]; simpl. split.
  - intros [[? ?] [? ?]]; subst. auto.
  - intros [E [? ?]]. inversion E; subst. auto.
Qed.

Lemma grow_spec k q :
  flood mask p (S k) |= q <->
  fg mask q /\ exists s, near8 q s /\ flood mask p k |= s.
Proof.
  rewrite flood_S. unfold grow. rewrite bget_tabulate, !andb_true_iff.
  rewrite binary_dilation_spec.
  destruct (flood_shape k) as [-> ->]. fold R C.
  unfold in_box. rewrite andb_true_iff, !Nat.ltb_lt. unfold fg. fold R C.
  destruct q as [r c]; simpl. tauto.
Qed.

Lemma flood_sound k q : flood mask p k |= q -> connected mask p q.
Proof.
  revert q. induction k as [|k IH]; intros q H.
  - apply single_spec in H. destruct H as [-> _]. now constructor.
  - apply grow_spec in H. destruct H as (Hq & s & Hn & Hs).
    apply connected_step with s; auto. now apply near8_sym.
Qed.

Lemma flood_mono k q : flood mask p k |= q -> flood mask p (S k) |= q.
Proof.
  intros H. apply grow_spec. split.
  - apply connected_fg_r with p. now apply flood_sound with k.
  - exists q. split; [apply near8_refl|assumption].
Qed.

Lemma flood_seed k : flood mask p k |= p.
Proof.
  induction k as [|k IH].
  - apply single_spec. destruct p_fg as (? & ? & _). auto.
  - now apply flood_mono.
Qed.

Lemma settled_S k : settled mask p k -> settled mask p (S k).
Proof.
  intros H q Hq. apply grow_spec in Hq. destruct Hq as (Hfg & s & Hn & Hs).
  apply grow_spec. split; [assumption|]. exists s. split; [assumption|].
  now apply H.
Qed.

Lemma settled_dec k :
  settled mask p k \/
  exists q, In q (cells R C) /\ bget (flood mask p k) (fst q) (snd q) = false
            /\ flood mask p (S k) |= q.
Proof.
  destruct (forallb (fun q =>
    implb (bget (flood mask p (S k)) (fst q) (snd q))
          (bget (flood mask p k) (fst q) (snd q))) (cells R C)) eqn:E.
  - left. intros q Hq.
    assert (Hin : In q (cells R C)).
    { apply grow_spec in Hq. destruct Hq as [(? & ? & _) _].
      destruct q. now apply in_cells. }
    rewrite forallb_forall in E. specialize (E q Hin).
    now rewrite Hq in E.
  - right. apply forallb_false_ex in E. destruct E as (q & Hin & Hq).
    exists q. split; [assumption|].
    destruct (bget (flood mask p (S k)) (fst q) (snd q));
      destruct (bget (flood mask p k) (fst q) (snd q));
      simpl in Hq; try discriminate. auto.
Qed.

Lemma count_flood k :
  count_true (flood mask p k)
  = length (filter (fun q => bget (flood mask p k) (fst q) (snd q))
                   (cells R C)).
Proof.
  unfold count_true. now destruct (flood_shape k) as [-> ->].
Qed.

Lemma flood_progress k : settled mask p k \/ k + 1 <= count_true (flood mask p k).
Proof.
  induction k as [|k IH].
  - right. rewrite count_flood.
    assert (Hin : In p (filter (fun q => bget (flood mask p 0) (fst q) (snd q))
                          (cells R C))).
    { apply filter_In. split; [|apply (flood_seed 0)].
      destruct p_fg as (? & ? & _). destruct p. now apply in_cells. }
    destruct (filter _ _); [contradiction|simpl; lia].
  - destruct (settled_dec k) as [Hs | (q & Hin & Hq0 & Hq1)].
    + left. now apply settled_S.
    + right. destruct IH as [Hs | Hc].
      * apply Hs in Hq1. congruence.
      * rewrite count_flood in *.
        assert (length (filter (fun q => bget (flood mask p k) (fst q) (snd q))
                          (cells R C))
                < length (filter (fun q =>
                            bget (flood mask p (S k)) (fst q) (snd q))
                          (cells R C))).
        { apply filter_length_lt.
          - intros x _. apply flood_mono.
          - exists q. auto. }
        lia.
Qed.

Lemma flood_settled : settled mask p (R * C).
Proof.
  destruct (flood_progress (R * C)) as [H | H]; [assumption|].
  rewrite count_flood in H.
  pose proof (filter_length
    (fun q => bget (flood mask p (R * C)) (fst q) (snd q)) (cells R C)) as Hl.
  rewrite length_cells in Hl. lia.
Qed.

Lemma flood_complete q :
  connected mask p q -> flood mask p (R * C) |= q.
Proof.
  induction 1 as [Hp | q r Hpq IH Hn Hr].
  - apply flood_seed.
  - apply flood_settled. apply grow_spec. split; [assumption|].
    exists q. split; [now apply near8_sym|]. now apply IH.
Qed.

Lemma component_spec q :
  component mask p |= q <-> connected mask p q.
Proof.
  split; [apply flood_sound | apply flood_complete].
Qed.

End Flood.

(** ** The labelling scan *)

Lemma labelled_zeros mask :
  labelled mask 0 (zeros (nrows_of mask) (ncols_of mask)).
Proof.
  assert (Z : forall q, nget (zeros (nrows_of mask) (ncols_of mask))
                          (fst q) (snd q) = 0).
  { intros q. unfold zeros. rewrite nget_tabulate. now destruct (in_box _ _ _ _). }
  constructor.
  - intros q H. now rewrite Z in H.
  - intros q. rewrite Z. lia.
  - intros q q' H. now rewrite Z in H.
  - intros q q' H. now rewrite Z in H.
  - intros id H. lia.
Qed.

Lemma paint_at mask p id L q :
  fg mask p ->
  (forall q, nget L (fst q) (snd q) <> 0 -> fg mask q) ->
  nget (paint (nrows_of mask) (ncols_of mask) (component mask p) id L)
       (fst q) (snd q)
  = if bget (component mask p) (fst q) (snd q) then id
    else nget L (fst q) (snd q).
Proof.
  intros Hp HL. unfold paint. rewrite nget_tabulate.
  destruct (in_box _ _ _ _) eqn:Hbox; [reflexivity|].
  destruct (bget (component mask p) (fst q) (snd q)) eqn:Hc.
  - apply (component_spec Hp) in Hc. apply connected_fg_r in Hc.
    destruct Hc as (H1 & H2 & _).
    rewrite in_box_true in Hbox by assumption. discriminate.
  - destruct (Nat.eq_dec (nget L (fst q) (snd q)) 0) as [E|E]; [now rewrite E|].
    apply HL in E. destruct E as (H1 & H2 & _).
    rewrite in_box_true in Hbox by assumption. discriminate.
Qed.

Lemma labelled_paint mask p num L :
  fg mask p -> nget L (fst p) (snd p) = 0 ->
  labelled mask num L ->
  labelled mask (S num)
    (paint (nrows_of mask) (ncols_of mask) (component mask p) (S num) L).
Proof.
  intros Hp Hp0 [Hfg Hle Hconn Hclosed Hused].
  assert (Hfresh : forall q, connected mask p q -> nget L (fst q) (snd q) = 0).
  { intros q Hq.
    destruct (Nat.eq_dec (nget L (fst q) (snd q)) 0) as [E|E]; [assumption|].
    exfalso. apply (Hclosed q p E); [now apply connected_sym|assumption]. }
  constructor.
  - intros q. rewrite (paint_at _ _ q Hp Hfg).
    destruct (bget (component mask p) (fst q) (snd q)) eqn:Hc.
    + intros _. apply (component_spec Hp) in Hc.
      now apply connected_fg_r with p.
    + apply Hfg.
  - intros q. rewrite (paint_at _ _ q Hp Hfg).
    destruct (bget (component mask p) (fst q) (snd q)); [lia|].
    specialize (Hle q). lia.
  - intros q q'.
    rewrite (paint_at _ _ q Hp Hfg), (paint_at _ _ q' Hp Hfg).
    destruct (bget (component mask p) (fst q) (snd q)) eqn:Hc;
      destruct (bget (component mask p) (fst q') (snd q')) eqn:Hc'.
    + intros _ _. apply (component_spec Hp) in Hc, Hc'.
      split; [intros _|reflexivity].
      apply connected_trans with p; [now apply connected_sym|assumption].
    + intros _ Hq'. split.
      * intros E. specialize (Hle q'). lia.
      * intros Hqq'. apply (component_spec Hp) in Hc.
        assert (Hpq' : connected mask p q')
          by now apply connected_trans with q.
        apply (component_spec Hp) in Hpq'. congruence.
    + intros Hq _. split.
      * intros E. specialize (Hle q). lia.
      * intros Hqq'. apply (component_spec Hp) in Hc'.
        assert (Hpq : connected mask p q).
        { apply connected_trans with q'; [assumption|].
          now apply connected_sym. }
        apply (component_spec Hp) in Hpq. congruence.
    + apply Hconn.
  - intros q q'.
    rewrite (paint_at _ _ q Hp Hfg), (paint_at _ _ q' Hp Hfg).
    destruct (bget (component mask p) (fst q') (snd q')) eqn:Hc'; [lia|].
    destruct (bget (component mask p) (fst q) (snd q)) eqn:Hc.
    + intros _ Hqq'. apply (component_spec Hp) in Hc.
      assert (Hpq' : connected mask p q')
        by now apply connected_trans with q.
      apply (component_spec Hp) in Hpq'. congruence.
    + apply Hclosed.
  - intros id Hid. destruct (Nat.eq_dec id (S num)) as [->|Hne].
    + exists p. rewrite (paint_at _ _ p Hp Hfg).
      assert (Hpp : connected mask p p) by now constructor.
      apply (component_spec Hp) in Hpp. now rewrite Hpp.
    + destruct (Hused id) as (q & Hq); [lia|].
      exists q. rewrite (paint_at _ _ q Hp Hfg).
      destruct (bget (component mask p) (fst q) (snd q)) eqn:Hc;
        [|assumption].
      apply (component_spec Hp) in Hc. apply Hfresh in Hc. lia.
Qed.

Lemma label_scan_spec mask todo : forall num L,
  labelled mask num L ->
  (forall q, In q todo -> fst q < nrows_of mask /\ snd q < ncols_of mask) ->
  (forall q, fg mask q -> In q todo \/ nget L (fst q) (snd q) <> 0) ->
  labelled mask (snd (label_scan mask todo num L))
                (fst (label_scan mask todo num L))
  /\ forall q, fg mask q ->
       nget (fst (label_scan mask todo num L)) (fst q) (snd q) <> 0.
Proof.
  induction todo as [|p todo IH]; intros num L HL Hbox Hcov; simpl.
  - split; [assumption|]. intros q Hq.
    destruct (Hcov q Hq) as [[]|H]. assumption.
  - assert (Hbox' : forall q, In q todo ->
                      fst q < nrows_of mask /\ snd q < ncols_of mask)
      by (intros q Hq; apply Hbox; now right).
    destruct (bget mask (fst p) (snd p)) eqn:Hm;
      [destruct (nget L (fst p) (snd p) =? 0) eqn:Hz|]; simpl.
    + apply Nat.eqb_eq in Hz.
      assert (Hp : fg mask p).
      { destruct (Hbox p (or_introl eq_refl)). repeat split; assumption. }
      apply IH; [now apply labelled_paint|assumption|].
      intros q Hq. rewrite (paint_at _ _ q Hp (lab_fg HL)).
      destruct (bget (component mask p) (fst q) (snd q)) eqn:Hc; [right; lia|].
      destruct (Hcov q Hq) as [[<-|Hin]|Hl]; auto.
      assert (Hpp : connected mask p p) by now constructor.
      apply (component_spec Hp) in Hpp. congruence.
    + apply Nat.eqb_neq in Hz.
      apply IH; try assumption.
      intros q Hq. destruct (Hcov q Hq) as [[<-|Hin]|Hl]; auto.
    + apply IH; try assumption.
      intros q Hq. destruct (Hcov q Hq) as [[<-|Hin]|Hl]; auto.
      destruct Hq as (_ & _ & Hq). congruence.
Qed.

Lemma label_spec mask :
  labelled mask (snd (label mask)) (fst (label mask))
  /\ forall q, fg mask q -> nget (fst (label mask)) (fst q) (snd q) <> 0.
Proof.
  unfold label. apply label_scan_spec.
  - apply labelled_zeros.
  - intros [r c] H. now apply in_cells in H.
  - intros [r c] (H1 & H2 & _). left. now apply in_cells.
Qed.

(** ** The flat mask of [labelFlats] *)

Lemma chain_ext (P Q : nat * nat -> Prop) p q :
  (forall x, P x <-> Q x) -> chain P p q -> chain Q p q.
Proof.
  intros H. induction 1 as [Hp | s r Hps IH Hn Hr].
  - apply chain_here. now apply H.
  - apply chain_step with s; auto. now apply H.
Qed.

Lemma count_round_at source out ij r c :
  r < nrows_of source -> c < ncols_of source ->
  nget (count_round source out ij) r c
  = if interior (nrows_of source) (ncols_of source) r c
    then nget out r c + neighbours_ge source r c [ij]
    else nget out r c.
Proof.
  intros Hr Hc. unfold count_round. rewrite nget_tabulate.
  rewrite in_box_true by assumption. simpl.
  now rewrite Nat.add_0_r.
Qed.

Lemma count_rounds_at source l : forall out r c,
  r < nrows_of source -> c < ncols_of source ->
  nget (fold_left (count_round source) l out) r c
  = if interior (nrows_of source) (ncols_of source) r c
    then nget out r c + neighbours_ge source r c l
    else nget out r c.
Proof.
  induction l as [|ij l IH]; intros out r c Hr Hc; simpl.
  - destruct (interior _ _ r c); lia.
  - rewrite IH, count_round_at by assumption.
    destruct (interior _ _ r c); [simpl; lia|reflexivity].
Qed.

Lemma neighbours_ge_all source r c l :
  neighbours_ge source r c l = length l <->
  forall ij, In ij l ->
    fgeb (fget source (r - 1 + fst ij) (c - 1 + snd ij)) (fget source r c)
    = true.
Proof.
  assert (Hle : forall l, neighbours_ge source r c l <= length l).
  { clear l. induction l as [|a l IH]; simpl; [lia|].
    destruct (fgeb _ _); simpl; lia. }
  induction l as [|a l IH]; simpl.
  - split; [intros _ ij []|reflexivity].
  - destruct (fgeb (fget source (r - 1 + fst a) (c - 1 + snd a))
                   (fget source r c)) eqn:E; simpl.
    + split.
      * intros H ij [<-|Hin]; [assumption|]. apply IH; [lia|assumption].
      * intros H. f_equal. apply IH. intros ij Hin. apply H. now right.
    + split.
      * intros H. specialize (Hle l). lia.
      * intros H. specialize (H a (or_introl eq_refl)). congruence.
Qed.

Lemma interior_spec R C r c :
  interior R C r c = true <-> 1 <= r /\ r + 1 < R /\ 1 <= c /\ c + 1 < C.
Proof.
  unfold interior. rewrite !andb_true_iff, !Nat.leb_le, !Nat.ltb_lt. tauto.
Qed.

Lemma in_cc ij :
  In ij cc <-> fst ij <= 2 /\ snd ij <= 2 /\ ij <> (1, 1).
Proof.
  destruct ij as [i j]. simpl. split.
  - intros H. repeat (destruct H as [H|H];
      [inversion H; subst; repeat split; (lia || discriminate)|]).
    contradiction.
  - intros (Hi & Hj & Hne).
    assert (Hi' : i = 0 \/ i = 1 \/ i = 2) by lia.
    assert (Hj' : j = 0 \/ j = 1 \/ j = 2) by lia.
    destruct Hi' as [-> | [-> | ->]]; destruct Hj' as [-> | [-> | ->]];
      try tauto.
Qed.

Lemma flat_mask_spec source r c :
  bget (flat_mask source) r c = true <-> flat_candidate source (r, c).
Proof.
  unfold flat_mask, flat_candidate. cbv zeta.
  rewrite bget_tabulate, andb_true_iff.
  unfold in_box. rewrite andb_true_iff, !Nat.ltb_lt, Nat.eqb_eq.
  cbv beta. simpl fst. simpl snd.
  split.
  - intros [[Hr Hc] H]. rewrite count_rounds_at in H by assumption.
    destruct (interior _ _ r c) eqn:Hi.
    2:{ unfold zeros in H. rewrite nget_tabulate in H.
        destruct (in_box _ _ _ _); discriminate. }
    split; [reflexivity|]. apply interior_spec in Hi.
    assert (H8 : neighbours_ge source r c cc = length cc).
    { unfold zeros in H. rewrite nget_tabulate in H.
      destruct (in_box _ _ _ _); simpl in *; lia. }
    rewrite neighbours_ge_all in H8.
    intros [r' c'] Hn Hne. unfold near8 in Hn. simpl in *.
    specialize (H8 (r' + 1 - r, c' + 1 - c)). simpl in H8.
    replace (r - 1 + (r' + 1 - r)) with r' in H8 by lia.
    replace (c - 1 + (c' + 1 - c)) with c' in H8 by lia.
    apply H8. apply in_cc. simpl. repeat split; try lia.
    intros E. inversion E. apply Hne. f_equal; lia.
  - intros [Hi H]. pose proof Hi as Hi'. apply interior_spec in Hi'.
    split; [lia|]. rewrite count_rounds_at by lia. rewrite Hi.
    unfold zeros. rewrite nget_tabulate, in_box_true by lia.
    rewrite Nat.add_0_l.
    change 8 with (length cc). apply neighbours_ge_all.
    intros [i j] Hin. apply in_cc in Hin. simpl in *.
    apply (H (r - 1 + i, c - 1 + j)).
    + unfold near8. simpl. lia.
    + intros E. inversion E. destruct Hin as (_ & _ & Hne). apply Hne.
      f_equal; lia.
Qed.

Lemma fg_flat_mask source q :
  fg (flat_mask source) q <-> flat_candidate source q.
Proof.
  destruct q as [r c]. rewrite <- flat_mask_spec. unfold fg. simpl. split.
  - tauto.
  - intros H. unfold flat_mask in *.
    destruct (bget_in_box _ _ _ _ _ H) as [Hr Hc].
    rewrite nrows_tabulate, ncols_tabulate_same. auto.
Qed.

Lemma share_fin a d t :
  (Qc0 < t)%Qc -> fdiv (fmul (Fin a) (Fin d)) (Fin t) = Fin (a * d / t)%Qc.
Proof. intros H. simpl. now rewrite (Qc_pos_eqb H). Qed.

(** ** The order of the sort *)

Lemma Qc_ltb_irrefl x : Qc_ltb x x = false.
Proof.
  destruct (Qc_ltb x x) eqn:E; [|reflexivity].
  apply Qc_ltb_lt in E. now apply Qclt_not_eq in E.
Qed.

Lemma Qc_ltb_trans x y z :
  Qc_ltb x y = true -> Qc_ltb y z = true -> Qc_ltb x z = true.
Proof.
  rewrite !Qc_ltb_lt. apply Qclt_trans.
Qed.

Lemma Qc_ltb_total x y :
  Qc_ltb x y = false -> Qc_ltb y x = false -> x = y.
Proof.
  intros H1 H2. destruct (Qc_dec x y) as [[H|H]|H].
  - apply Qc_ltb_lt in H. congruence.
  - apply Qc_ltb_lt in H. congruence.
  - assumption.
Qed.

Lemma DOUBLE_LT_irrefl a : DOUBLE_LT a a = false.
Proof.
  destruct a; unfold DOUBLE_LT; simpl; try reflexivity.
  now rewrite Qc_ltb_irrefl.
Qed.

Lemma DOUBLE_LT_trans a b c :
  DOUBLE_LT a b = true -> DOUBLE_LT b c = true -> DOUBLE_LT a c = true.
Proof.
  destruct a as [x| | |], b as [y| | |], c as [z| | |];
    unfold DOUBLE_LT; simpl; try congruence.
  rewrite !orb_false_r. apply Qc_ltb_trans.
Qed.

Lemma DOUBLE_LT_total a b :
  DOUBLE_LT a b = false -> DOUBLE_LT b a = false -> a = b.
Proof.
  destruct a as [x| | |], b as [y| | |];
    unfold DOUBLE_LT; simpl; try congruence.
  rewrite !orb_false_r. intros H1 H2. f_equal. now apply Qc_ltb_total.
Qed.

Lemma DOUBLE_LT_asym a b : DOUBLE_LT a b = true -> DOUBLE_LT b a = false.
Proof.
  intros H. destruct (DOUBLE_LT b a) eqn:E; [|reflexivity].
  pose proof (DOUBLE_LT_trans _ _ _ H E) as F.
  now rewrite DOUBLE_LT_irrefl in F.
Qed.

(** The order on records, as a proposition. *)
Lemma key_le_spec k1 k2 :
  key_le k1 k2 <->
  DOUBLE_LT (fst k1) (fst k2) = true \/
  (fst k1 = fst k2 /\ snd k1 <= snd k2).
Proof.
  unfold key_le, combo_compare, DOUBLE_compare.
  destruct (DOUBLE_LT (fst k1) (fst k2)) eqn:E1.
  - split; [now left|discriminate].
  - destruct (DOUBLE_LT (fst k2) (fst k1)) eqn:E2.
    + split; [congruence|]. intros [H|[H _]]; [discriminate|].
      rewrite H, DOUBLE_LT_irrefl in E2. discriminate.
    + pose proof (DOUBLE_LT_total _ _ E1 E2) as E.
      destruct (Nat.compare_spec (snd k1) (snd k2)).
      * split; [right; split; [assumption|lia]|discriminate].
      * split; [right; split; [assumption|lia]|discriminate].
      * split; [congruence|]. intros [H'|[_ H']]; [discriminate|lia].
Qed.

Lemma key_le_trans a b c : key_le a b -> key_le b c -> key_le a c.
Proof.
  rewrite !key_le_spec. intros [H1|[E1 L1]] [H2|[E2 L2]].
  - left. now apply DOUBLE_LT_trans with (fst b).
  - left. now rewrite <- E2.
  - left. now rewrite E1.
  - right. split; [congruence|lia].
Qed.

Lemma key_le_antisym a b : key_le a b -> key_le b a -> a = b.
Proof.
  rewrite !key_le_spec. destruct a as [e1 c1], b as [e2 c2]; simpl.
  intros [H1|[E1 L1]] [H2|[E2 L2]].
  - apply DOUBLE_LT_asym in H1. congruence.
  - subst. now rewrite DOUBLE_LT_irrefl in H1.
  - subst. now rewrite DOUBLE_LT_irrefl in H2.
  - f_equal; [assumption|lia].
Qed.

Lemma key_le_total a b : key_le a b \/ key_le b a.
Proof.
  rewrite !key_le_spec.
  destruct (DOUBLE_LT (fst a) (fst b)) eqn:E1; [now left; left|].
  destruct (DOUBLE_LT (fst b) (fst a)) eqn:E2; [now right; left|].
  pose proof (DOUBLE_LT_total _ _ E1 E2) as E.
  destruct (Nat.le_ge_cases (snd a) (snd b)); [left|right]; right; auto.
Qed.

Lemma combo_compare_Lt a b : combo_compare a b = Lt -> key_le a b.
Proof. unfold key_le. congruence. Qed.

Lemma combo_compare_not_Lt a b : combo_compare a b <> Lt -> key_le b a.
Proof.
  intros H. destruct (key_le_total b a) as [|H']; [assumption|].
  assert (E : combo_compare a b = Eq).
  { unfold key_le in H'. destruct (combo_compare a b); congruence. }
  apply key_le_spec. right.
  unfold combo_compare, DOUBLE_compare in E.
  destruct (DOUBLE_LT (fst a) (fst b)) eqn:E1; [discriminate|].
  destruct (DOUBLE_LT (fst b) (fst a)) eqn:E2; [discriminate|].
  apply Nat.compare_eq in E.
  split; [symmetry; now apply DOUBLE_LT_total|lia].
Qed.

(** ** [argsort] *)

Lemma insert_index_perm combo i l :
  Permutation (insert_index combo i l) (i :: l).
Proof.
  induction l as [|j l IH]; simpl; [reflexivity|].
  destruct (combo_compare (key_at combo j) (key_at combo i));
    try reflexivity.
  rewrite IH. apply perm_swap.
Qed.

Lemma argsort_perm combo : Permutation (argsort combo) (seq 0 (length combo)).
Proof.
  unfold argsort. induction (seq 0 (length combo)) as [|i l IH]; simpl.
  - reflexivity.
  - rewrite insert_index_perm. now constructor.
Qed.

Lemma insert_index_sorted combo i l :
  StronglySorted (fun a b => key_le (key_at combo a) (key_at combo b)) l ->
  StronglySorted (fun a b => key_le (key_at combo a) (key_at combo b))
                 (insert_index combo i l).
Proof.
  induction 1 as [|j l Hs IH Hj]; simpl.
  - constructor; constructor.
  - destruct (combo_compare (key_at combo j) (key_at combo i)) eqn:E.
    + constructor; [now constructor|].
      assert (Hij : key_le (key_at combo i) (key_at combo j))
        by (apply combo_compare_not_Lt; congruence).
      constructor; [assumption|].
      eapply Forall_impl; [|exact Hj]. intros x Hx.
      now apply key_le_trans with (key_at combo j).
    + constructor; [assumption|].
      apply (Permutation_Forall (Permutation_sym (insert_index_perm combo i l))).
      constructor; [now apply combo_compare_Lt|assumption].
    + constructor; [now constructor|].
      assert (Hij : key_le (key_at combo i) (key_at combo j))
        by (apply combo_compare_not_Lt; congruence).
      constructor; [assumption|].
      eapply Forall_impl; [|exact Hj]. intros x Hx.
      now apply key_le_trans with (key_at combo j).
Qed.

Lemma argsort_sorted combo :
  StronglySorted (fun a b => key_le (key_at combo a) (key_at combo b))
                 (argsort combo).
Proof.
  unfold argsort. induction (seq 0 (length combo)) as [|i l IH]; simpl.
  - constructor.
  - now apply insert_index_sorted.
Qed.

Lemma StronglySorted_nth T (R : T -> T -> Prop) d l :
  StronglySorted R l ->
  forall i j, i < j -> j < length l -> R (nth i l d) (nth j l d).
Proof.
  induction 1 as [|a l Hs IH Ha]; intros i j Hij Hj; simpl in Hj; [lia|].
  destruct j as [|j]; [lia|]. destruct i as [|i]; simpl.
  - rewrite Forall_forall in Ha. apply Ha. apply nth_In. lia.
  - apply IH; lia.
Qed.

(** ** The flattened inner arrays *)

Lemma length_flat_map_seq T (g : nat -> nat -> T) m k s :
  length (flat_map (fun x => map (g x) (seq 0 m)) (seq s k)) = k * m.
Proof.
  revert s. induction k as [|k IH]; intros s; simpl; [reflexivity|].
  now rewrite length_app, length_map, length_seq, IH.
Qed.

Lemma nth_flat_map_seq T (g : nat -> nat -> T) d m k : forall s i,
  i < k * m ->
  nth i (flat_map (fun x => map (g x) (seq 0 m)) (seq s k)) d
  = g (s + i / m) (i mod m).
Proof.
  induction k as [|k IH]; intros s i Hi; simpl in *; [lia|].
  assert (Hm : m <> 0) by (intros ->; lia).
  destruct (Nat.lt_ge_cases i m) as [Hlt|Hge].
  - rewrite app_nth1 by now rewrite length_map, length_seq.
    rewrite (nth_indep _ d (g s 0)) by now rewrite length_map, length_seq.
    rewrite (map_nth (g s) (seq 0 m) 0 i), seq_nth by assumption.
    rewrite Nat.div_small, Nat.mod_small by assumption.
    now rewrite Nat.add_0_r.
  - rewrite app_nth2 by (rewrite length_map, length_seq; lia).
    rewrite length_map, length_seq.
    assert (E : i = (i - m) + 1 * m) by lia.
    assert (Hd : i / m = (i - m) / m + 1)
      by (rewrite E at 1; now apply Nat.div_add).
    assert (Hmod : i mod m = (i - m) mod m)
      by (rewrite E at 1; apply Nat.Div0.mod_add).
    rewrite IH, Hd, Hmod by lia. f_equal. lia.
Qed.

Lemma length_flattenF T (d : T) A :
  length (flattenF d A) = (ncols_of A - 2) * (nrows_of A - 2).
Proof. unfold flattenF. apply length_flat_map_seq. Qed.

Lemma nth_flattenF T (d : T) A i :
  i < (ncols_of A - 2) * (nrows_of A - 2) ->
  nth i (flattenF d A) d
  = get d A (i mod (nrows_of A - 2) + 1) (i / (nrows_of A - 2) + 1).
Proof.
  intros Hi. unfold flattenF.
  now rewrite (nth_flat_map_seq (fun x y => get d A (y + 1) (x + 1))).
Qed.

Lemma label_scan_shape mask todo : forall num L,
  nrows_of L = nrows_of mask -> ncols_of L = ncols_of mask ->
  nrows_of (fst (label_scan mask todo num L)) = nrows_of mask
  /\ ncols_of (fst (label_scan mask todo num L)) = ncols_of mask.
Proof.
  induction todo as [|p todo IH]; intros num L HR HC; simpl; [now split|].
  destruct (bget mask (fst p) (snd p) && (nget L (fst p) (snd p) =? 0)).
  - apply IH; unfold paint;
      [apply nrows_tabulate | apply ncols_tabulate_same].
  - now apply IH.
Qed.

Lemma labelFlats_shape elev :
  nrows_of (fst (labelFlats elev)) = nrows_of elev
  /\ ncols_of (fst (labelFlats elev)) = ncols_of elev.
Proof.
  unfold labelFlats, label.
  assert (HR : nrows_of (flat_mask elev) = nrows_of elev)
    by apply nrows_tabulate.
  assert (HC : ncols_of (flat_mask elev) = ncols_of elev)
    by apply ncols_tabulate_same.
  rewrite <- HR, <- HC. apply label_scan_shape; unfold zeros;
    [apply nrows_tabulate | apply ncols_tabulate_same].
Qed.

Lemma length_combo elev :
  length (combo_of elev) = (ncols_of elev - 2) * (nrows_of elev - 2).
Proof.
  unfold combo_of, key. cbv zeta. rewrite length_combine, !length_flattenF.
  destruct (labelFlats_shape elev) as [-> ->]. apply Nat.min_id.
Qed.

Lemma key_at_combo elev i :
  i < (ncols_of elev - 2) * (nrows_of elev - 2) ->
  key_at (combo_of elev) i
  = (fget elev (i mod (nrows_of elev - 2) + 1)
               (i / (nrows_of elev - 2) + 1),
     nget (fst (labelFlats elev)) (i mod (nrows_of elev - 2) + 1)
                                  (i / (nrows_of elev - 2) + 1)).
Proof.
  intros Hi. destruct (labelFlats_shape elev) as [HR HC].
  unfold key_at, combo_of, key. cbv zeta.
  rewrite combine_nth by (rewrite !length_flattenF, HR, HC; reflexivity).
  rewrite !nth_flattenF by (rewrite ?HR, ?HC; assumption).
  rewrite HR. reflexivity.
Qed.

Lemma cell_of_index_interior R C i :
  i < (C - 2) * (R - 2) ->
  interior R C (fst (cell_of_index (R - 2) i)) (snd (cell_of_index (R - 2) i))
  = true.
Proof.
  intros Hi. unfold cell_of_index. simpl. apply interior_spec.
  assert (Hm : R - 2 <> 0) by (intros E; rewrite E in Hi; lia).
  pose proof (Nat.mod_upper_bound i (R - 2) Hm).
  assert (i / (R - 2) < C - 2).
  { apply Nat.Div0.div_lt_upper_bound. lia. }
  lia.
Qed.

Lemma cell_of_index_inj n i j :
  cell_of_index n i = cell_of_index n j -> i = j.
Proof.
  unfold cell_of_index. intros H. inversion H.
  rewrite (Nat.div_mod_eq i n), (Nat.div_mod_eq j n).
  assert (i mod n = j mod n) by lia. assert (i / n = j / n) by lia.
  congruence.
Qed.

Lemma cell_of_index_onto R C r c :
  interior R C r c = true ->
  exists i, i < (C - 2) * (R - 2) /\ cell_of_index (R - 2) i = (r, c).
Proof.
  intros H. apply interior_spec in H.
  exists ((c - 1) * (R - 2) + (r - 1)). split; [nia|].
  unfold cell_of_index.
  assert (Hm : R - 2 <> 0) by lia.
  replace ((c - 1) * (R - 2) + (r - 1)) with ((r - 1) + (c - 1) * (R - 2))
    by lia.
  rewrite Nat.Div0.mod_add, Nat.div_add by assumption.
  rewrite Nat.div_small, Nat.mod_small by lia.
  f_equal; lia.
Qed.

(** ** Flat regions are level *)

Lemma feqb_eq a b : feqb a b = true -> a = b.
Proof.
  destruct a as [x| | |], b as [y| | |]; simpl; try discriminate;
    try reflexivity.
  intros H. f_equal. now apply Qc_eqb_eq.
Qed.

Lemma fltb_asym a b : fltb a b = true -> fltb b a = false.
Proof.
  destruct a as [x| | |], b as [y| | |]; simpl; try discriminate;
    try reflexivity.
  intros H. destruct (Qc_ltb y x) eqn:E; [|reflexivity].
  pose proof (Qc_ltb_trans _ _ _ H E) as F.
  now rewrite Qc_ltb_irrefl in F.
Qed.

Lemma fgeb_antisym a b : fgeb a b = true -> fgeb b a = true -> a = b.
Proof.
  unfold fgeb, fleb. rewrite !orb_true_iff.
  intros [H1|H1] [H2|H2].
  - apply fltb_asym in H1. congruence.
  - now apply feqb_eq.
  - symmetry. now apply feqb_eq.
  - now apply feqb_eq.
Qed.

Lemma labelFlats_positive elev p :
  nget (fst (labelFlats elev)) (fst p) (snd p) <> 0 <-> flat_candidate elev p.
Proof.
  unfold labelFlats.
  destruct (label_spec (flat_mask elev)) as [HL Hall].
  rewrite <- fg_flat_mask. split; [apply (lab_fg HL)|apply Hall].
Qed.

Lemma labelFlats_same_id elev p q :
  nget (fst (labelFlats elev)) (fst p) (snd p) <> 0 ->
  nget (fst (labelFlats elev)) (fst q) (snd q) <> 0 ->
  (nget (fst (labelFlats elev)) (fst p) (snd p)
   = nget (fst (labelFlats elev)) (fst q) (snd q)
   <-> chain (flat_candidate elev) p q).
Proof.
  unfold labelFlats. intros Hp Hq.
  destruct (label_spec (flat_mask elev)) as [HL _].
  rewrite (lab_conn HL p q Hp Hq). unfold connected.
  split; apply chain_ext; intros x;
    [apply fg_flat_mask | symmetry; apply fg_flat_mask].
Qed.

Lemma chain_level elev p q :
  chain (flat_candidate elev) p q ->
  fget elev (fst p) (snd p) = fget elev (fst q) (snd q).
Proof.
  induction 1 as [Hp | q r Hpq IH Hn Hr]; [reflexivity|].
  rewrite IH.
  assert (Hq : flat_candidate elev q).
  { clear IH Hn Hr. induction Hpq; assumption. }
  destruct (Nat.eq_dec (fst q) (fst r)) as [E1|E1];
    [destruct (Nat.eq_dec (snd q) (snd r)) as [E2|E2]|].
  - now rewrite E1, E2.
  - apply fgeb_antisym.
    + apply (proj2 Hr q); [now apply near8_sym|].
      intros E. apply E2. now rewrite E.
    + apply (proj2 Hq r); [assumption|].
      intros E. apply E2. now rewrite E.
  - apply fgeb_antisym.
    + apply (proj2 Hr q); [now apply near8_sym|].
      intros E. apply E1. now rewrite E.
    + apply (proj2 Hq r); [assumption|].
      intros E. apply E1. now rewrite E.
Qed.

Lemma same_flat_same_key elev i j :
  i < (ncols_of elev - 2) * (nrows_of elev - 2) ->
  j < (ncols_of elev - 2) * (nrows_of elev - 2) ->
  snd (key_at (combo_of elev) i) <> 0 ->
  snd (key_at (combo_of elev) i) = snd (key_at (combo_of elev) j) ->
  key_at (combo_of elev) i = key_at (combo_of elev) j.
Proof.
  intros Hi Hj. rewrite !key_at_combo by assumption. simpl.
  intros Hne E. f_equal; [|assumption].
  apply (chain_level
           (p := (i mod (nrows_of elev - 2) + 1, i / (nrows_of elev - 2) + 1))
           (q := (j mod (nrows_of elev - 2) + 1, j / (nrows_of elev - 2) + 1))).
  apply labelFlats_same_id; simpl; congruence.
Qed.

Lemma visiting_order_perm elev :
  Permutation (visiting_order elev)
              (seq 0 ((ncols_of elev - 2) * (nrows_of elev - 2))).
Proof.
  unfold visiting_order. rewrite <- Permutation_rev.
  rewrite <- length_combo. apply argsort_perm.
Qed.

Lemma visiting_order_length elev :
  length (visiting_order elev) = (ncols_of elev - 2) * (nrows_of elev - 2).
Proof.
  rewrite (Permutation_length (visiting_order_perm elev)).
  apply length_seq.
Qed.

Lemma visiting_order_bound elev i :
  In i (visiting_order elev) ->
  i < (ncols_of elev - 2) * (nrows_of elev - 2).
Proof.
  intros H. apply (Permutation_in _ (visiting_order_perm elev)) in H.
  apply in_seq in H. lia.
Qed.

Lemma visiting_order_descending elev p q :
  p < q -> q < length (visiting_order elev) ->
  key_le (key_at (combo_of elev) (nth q (visiting_order elev) 0))
         (key_at (combo_of elev) (nth p (visiting_order elev) 0)).
Proof.
  intros Hpq Hq. unfold visiting_order in *. rewrite length_rev in Hq.
  rewrite !rev_nth by lia.
  apply (StronglySorted_nth 0 (argsort_sorted (combo_of elev))); lia.
Qed.

(** ** Order on the rationals *)

Lemma Qc_add_nonneg a b : (Qc0 <= a)%Qc -> (Qc0 <= b)%Qc -> (Qc0 <= a + b)%Qc.
Proof.
  intros Ha Hb. replace Qc0 with (Qc0 + Qc0)%Qc by (unfold Qc0; ring).
  now apply Qcplus_le_compat.
Qed.

Lemma Qc_le_add a b : (Qc0 <= b)%Qc -> (a <= a + b)%Qc.
Proof.
  intros Hb. replace a with (a + Qc0)%Qc at 1 by (unfold Qc0; ring).
  apply Qcplus_le_compat; [apply Qcle_refl|assumption].
Qed.

Lemma Qc_mul_nonneg a b : (Qc0 <= a)%Qc -> (Qc0 <= b)%Qc -> (Qc0 <= a * b)%Qc.
Proof.
  intros Ha Hb. replace Qc0 with (Qc0 * b)%Qc by (unfold Qc0; ring).
  now apply Qcmult_le_compat_r.
Qed.

Lemma Qc_inv_nonneg t : (Qc0 < t)%Qc -> (Qc0 <= / t)%Qc.
Proof.
  intros H. unfold Qcle, Qclt, Qcinv, Qc0, Q2Qc, this in *.
  rewrite !Qred_correct in *.
  apply Qlt_le_weak. now apply Qinv_lt_0_compat.
Qed.

Lemma Qc_div_nonneg d t : (Qc0 <= d)%Qc -> (Qc0 < t)%Qc -> (Qc0 <= d / t)%Qc.
Proof.
  intros Hd Ht. unfold Qcdiv. apply Qc_mul_nonneg; [assumption|].
  now apply Qc_inv_nonneg.
Qed.

Lemma Qc_sub_nonneg w m : (w < m)%Qc -> (Qc0 <= m + - w)%Qc.
Proof.
  intros H. apply Qclt_le_weak in H.
  replace Qc0 with (w + - w)%Qc by (unfold Qc0; ring).
  apply Qcplus_le_compat; [assumption|apply Qcle_refl].
Qed.

Lemma fleb_Fin a b : (a <= b)%Qc -> fleb (Fin a) (Fin b) = true.
Proof.
  intros H. unfold fleb. simpl. apply orb_true_iff.
  destruct (Qcle_lt_or_eq _ _ H) as [Hlt|Heq].
  - left. now apply Qc_ltb_lt.
  - right. now apply Qc_eqb_eq.
Qed.

Lemma fleb_Fin_inv a b : fleb (Fin a) (Fin b) = true -> (a <= b)%Qc.
Proof.
  unfold fleb. simpl. rewrite orb_true_iff. intros [H|H].
  - apply Qclt_le_weak. now apply Qc_ltb_lt.
  - apply Qc_eqb_eq in H. subst. apply Qcle_refl.
Qed.

Lemma fleb_refl_nonneg v : nonneg v -> fleb v v = true.
Proof. intros (a & -> & _). apply fleb_Fin, Qcle_refl. Qed.

(** ** Sums of non-negative values *)

Lemma fold_fadd_nonneg l : forall acc,
  (Qc0 <= acc)%Qc -> Forall nonneg l ->
  exists s, fold_left fadd l (Fin acc) = Fin s /\ (acc <= s)%Qc /\
            Forall (fun v => exists a, v = Fin a /\ (a <= s)%Qc) l.
Proof.
  induction l as [|v l IH]; intros acc Hacc Hl; simpl.
  - exists acc. repeat split; [apply Qcle_refl|constructor].
  - inversion Hl as [|v' l' (a & -> & Ha) Hl']; subst.
    destruct (IH (acc + a)%Qc (Qc_add_nonneg Hacc Ha) Hl')
      as (s & Hs & Hle & Hall).
    exists s. simpl. repeat split; [assumption| |].
    + apply Qcle_trans with (acc + a)%Qc; [now apply Qc_le_add|assumption].
    + constructor; [|assumption].
      exists a. split; [reflexivity|].
      apply Qcle_trans with (acc + a)%Qc; [|assumption].
      rewrite Qcplus_comm. now apply Qc_le_add.
Qed.

Lemma fsum_nonneg l :
  Forall nonneg l ->
  exists s, fsum l = Fin s /\ (Qc0 <= s)%Qc /\
            Forall (fun v => exists a, v = Fin a /\ (a <= s)%Qc) l.
Proof.
  intros H. unfold fsum, f0. apply fold_fadd_nonneg; [apply Qcle_refl|assumption].
Qed.

Lemma fadd_nonneg_or_inf a b :
  nonneg_or_inf a -> nonneg_or_inf b -> nonneg_or_inf (fadd a b).
Proof.
  destruct a, b; simpl; try tauto. apply Qc_add_nonneg.
Qed.

Lemma fold_fadd_fin l : forall acc t,
  nonneg_or_inf acc -> Forall nonneg_or_inf l ->
  fold_left fadd l acc = Fin t ->
  is_fin acc = true /\ Forall (fun v => is_fin v = true) l.
Proof.
  induction l as [|v l IH]; intros acc t Hacc Hl H; simpl in H.
  - subst. split; [reflexivity|constructor].
  - inversion Hl as [|v' l' Hv Hl']; subst.
    destruct (IH _ _ (fadd_nonneg_or_inf _ _ Hacc Hv) Hl' H) as [Hf Hall].
    destruct acc, v; simpl in *; try discriminate; try contradiction.
    split; [reflexivity|]. constructor; [reflexivity|assumption].
Qed.

Lemma diff_nonneg_or_inf elev y x i j : nonneg_or_inf (diff elev y x i j).
Proof.
  unfold diff. destruct (fltb _ _) eqn:E; [|apply Qcle_refl].
  destruct (win elev y x i j) as [w| | |], (win elev y x 1 1) as [m| | |];
    simpl in *; try discriminate; try exact I.
  apply Qc_sub_nonneg. now apply Qc_ltb_lt.
Qed.

Lemma diff_sum_entries elev y x t i j :
  diff_sum elev y x = Fin t -> i < 3 -> j < 3 ->
  nonneg (diff elev y x i j).
Proof.
  intros H Hi Hj. unfold diff_sum, fsum in H.
  apply fold_fadd_fin in H.
  - destruct H as [_ H]. rewrite Forall_forall in H.
    assert (Hin : In (diff elev y x i j)
                    (map (fun d => diff elev y x (fst d) (snd d)) offsets3)).
    { apply in_map_iff. exists (i, j). split; [reflexivity|].
      assert (Hi' : i = 0 \/ i = 1 \/ i = 2) by lia.
      assert (Hj' : j = 0 \/ j = 1 \/ j = 2) by lia.
      destruct Hi' as [-> | [-> | ->]]; destruct Hj' as [-> | [-> | ->]];
        simpl; tauto. }
    apply H in Hin. pose proof (diff_nonneg_or_inf elev y x i j) as Hn.
    destruct (diff elev y x i j) as [d| | |]; try discriminate.
    exists d. split; [reflexivity|assumption].
  - apply Qcle_refl.
  - apply Forall_forall. intros v Hv. apply in_map_iff in Hv.
    destruct Hv as ([i' j'] & <- & _). apply diff_nonneg_or_inf.
Qed.

(** ** One resolution and one distribution keep the grid non-negative and
    never lower a value *)

Lemma flatThing_shape e_c flats accum elev :
  same_shape (flatThing e_c flats accum elev) accum.
Proof.
  unfold flatThing. cbv zeta.
  split; [apply nrows_tabulate | apply ncols_tabulate_same].
Qed.

Lemma distribute_shape elev accum y x :
  same_shape (distribute elev accum y x) accum.
Proof.
  unfold distribute. cbv zeta.
  split; [apply nrows_tabulate | apply ncols_tabulate_same].
Qed.

Lemma zonal_sum_bounds flats id accum :
  nonneg_grid accum ->
  exists s, zonal_sum flats id accum = Fin s /\ (Qc0 <= s)%Qc /\
    forall r c, r < nrows_of accum -> c < ncols_of accum ->
      bget (flat_members flats id) r c = true ->
      exists a, fget accum r c = Fin a /\ (a <= s)%Qc.
Proof.
  intros Hnn. unfold zonal_sum, masked.
  destruct (fsum_nonneg
    (l := map (fun p => fget accum (fst p) (snd p))
            (filter (fun p => bget (flat_members flats id) (fst p) (snd p))
                    (cells (nrows_of accum) (ncols_of accum)))))
    as (s & Hs & Hpos & Hall).
  { apply Forall_forall. intros v Hv. apply in_map_iff in Hv.
    destruct Hv as ([r c] & <- & Hin). apply filter_In in Hin.
    destruct Hin as [Hin _]. apply in_cells in Hin. now apply Hnn. }
  exists s. repeat split; try assumption.
  intros r c Hr Hc Hm. rewrite Forall_forall in Hall. apply Hall.
  apply in_map_iff. exists (r, c). split; [reflexivity|].
  apply filter_In. split; [now apply in_cells|assumption].
Qed.

Lemma flatThing_step e_c flats accum elev :
  nonneg_grid accum ->
  nonneg_grid (flatThing e_c flats accum elev)
  /\ grid_le accum (flatThing e_c flats accum elev).
Proof.
  intros Hnn.
  destruct (zonal_sum_bounds flats (snd e_c) Hnn) as (s & Hs & Hpos & Hmem).
  unfold zonal_sum in Hs.
  assert (Hcell : forall r c, r < nrows_of accum -> c < ncols_of accum ->
    exists a b, fget accum r c = Fin a /\
                fget (flatThing e_c flats accum elev) r c = Fin b /\
                (Qc0 <= b)%Qc /\ (a <= b)%Qc).
  { intros r c Hr Hc. rewrite flatThing_at by assumption. rewrite Hs.
    destruct (Hnn r c Hr Hc) as (a & Ha & Hapos).
    destruct (bget (flat_members flats (snd e_c)) r c) eqn:HF.
    - destruct (Hmem r c Hr Hc HF) as (a' & Ha' & Hle).
      exists a', s. auto.
    - destruct (bget (pour_points _ elev (fst e_c)) r c) eqn:HP.
      + assert (Hk : 0 < count_true
                  (pour_points (flat_members flats (snd e_c)) elev (fst e_c))).
        { rewrite count_true_cells.
          assert (Hin : In (r, c) (true_cells
                    (pour_points (flat_members flats (snd e_c)) elev (fst e_c)))).
          { apply in_true_cells. unfold pour_points in *.
            destruct (bget_in_box _ _ _ _ _ HP) as [H1 H2].
            rewrite nrows_tabulate, ncols_tabulate_same. auto. }
          destruct (true_cells _); [contradiction|simpl; lia]. }
        set (n := count_true
                  (pour_points (flat_members flats (snd e_c)) elev (fst e_c)))
          in *.
        rewrite fdiv_of_nat by assumption. rewrite Ha. simpl.
        exists a, (a + s / Qc_of_nat n)%Qc.
        assert (Hq : (Qc0 <= s / Qc_of_nat n)%Qc)
          by (apply Qc_div_nonneg; [assumption|now apply Qc_of_nat_pos]).
        split; [reflexivity|split; [reflexivity|split]];
          [now apply Qc_add_nonneg|now apply Qc_le_add].
      + exists a, a.
        split; [assumption|split; [assumption|split]];
          [assumption|apply Qcle_refl]. }
  destruct (flatThing_shape e_c flats accum elev) as [HR HC].
  split.
  - intros r c Hr Hc. rewrite HR in Hr. rewrite HC in Hc.
    destruct (Hcell r c Hr Hc) as (a & b & _ & Hb & Hpos' & _).
    exists b. auto.
  - intros r c Hr Hc.
    destruct (Hcell r c Hr Hc) as (a & b & Ha & Hb & _ & Hle).
    rewrite Ha, Hb. now apply fleb_Fin.
Qed.

Lemma distribute_step elev accum y x t :
  nonneg_grid accum ->
  y + 1 < nrows_of accum -> x + 1 < ncols_of accum ->
  diff_sum elev y x = Fin t -> (Qc0 < t)%Qc ->
  nonneg_grid (distribute elev accum y x)
  /\ grid_le accum (distribute elev accum y x).
Proof.
  intros Hnn Hy Hx Ht Hpos.
  destruct (Hnn _ _ Hy Hx) as (m & Hm & Hmpos).
  assert (Hcell : forall r c, r < nrows_of accum -> c < ncols_of accum ->
    exists a b, fget accum r c = Fin a /\
                fget (distribute elev accum y x) r c = Fin b /\
                (Qc0 <= b)%Qc /\ (a <= b)%Qc).
  { intros r c Hr Hc. rewrite distribute_at by assumption.
    destruct (Hnn r c Hr Hc) as (a & Ha & Hapos).
    destruct ((y <=? r) && (r <? y + 3) && (x <=? c) && (c <? x + 3)) eqn:E.
    - rewrite !andb_true_iff, !Nat.leb_le, !Nat.ltb_lt in E.
      destruct (diff_sum_entries elev y x (i := r - y) (j := c - x) Ht)
        as (d & Hd & Hdpos); try lia.
      rewrite Ha, Hd, Ht, Hm. simpl. rewrite (Qc_pos_eqb Hpos). simpl.
      exists a, (a + d / t * m)%Qc.
      assert (Hq : (Qc0 <= d / t * m)%Qc)
        by (apply Qc_mul_nonneg; [now apply Qc_div_nonneg|assumption]).
      split; [reflexivity|split; [reflexivity|split]];
        [now apply Qc_add_nonneg|now apply Qc_le_add].
    - exists a, a.
        split; [assumption|split; [assumption|split]];
          [assumption|apply Qcle_refl]. }
  destruct (distribute_shape elev accum y x) as [HR HC].
  split.
  - intros r c Hr Hc. rewrite HR in Hr. rewrite HC in Hc.
    destruct (Hcell r c Hr Hc) as (a & b & _ & Hb & Hpos' & _).
    exists b. auto.
  - intros r c Hr Hc.
    destruct (Hcell r c Hr Hc) as (a & b & Ha & Hb & _ & Hle).
    rewrite Ha, Hb. now apply fleb_Fin.
Qed.

Lemma grid_le_refl A : nonneg_grid A -> grid_le A A.
Proof. intros H r c Hr Hc. now apply fleb_refl_nonneg, H. Qed.

Lemma grid_le_trans A B C :
  same_shape B A -> nonneg_grid A -> nonneg_grid B -> nonneg_grid C ->
  same_shape C B ->
  grid_le A B -> grid_le B C -> grid_le A C.
Proof.
  intros [HR HC] HA HB HCn [HR' HC'] H1 H2 r c Hr Hc.
  specialize (H1 r c Hr Hc).
  assert (Hr' : r < nrows_of B) by lia. assert (Hc' : c < ncols_of B) by lia.
  specialize (H2 r c Hr' Hc').
  destruct (HA r c Hr Hc) as (a & Ea & _).
  destruct (HB r c Hr' Hc') as (b & Eb & _).
  assert (Hr'' : r < nrows_of C) by lia. assert (Hc'' : c < ncols_of C) by lia.
  destruct (HCn r c Hr'' Hc'') as (d & Ed & _).
  rewrite Ea, Eb in H1. rewrite Eb, Ed in H2. rewrite Ea, Ed.
  apply fleb_Fin. apply Qcle_trans with b; now apply fleb_Fin_inv.
Qed.

(** ** The sweep, round by round *)

Lemma firstn_S_nth T (d : T) l : forall k,
  k < length l -> firstn (S k) l = firstn k l ++ [nth k l d].
Proof.
  induction l as [|a l IH]; intros k Hk; simpl in Hk; [lia|].
  destruct k as [|k]; [reflexivity|].
  simpl. f_equal. apply IH. lia.
Qed.

Lemma run_S elev k :
  k < length (visiting_order elev) ->
  run elev (S k)
  = sweep_step elev (fst (labelFlats elev)) (combo_of elev)
      (nrows_of elev - 2) (run elev k) (nth k (visiting_order elev) 0).
Proof.
  intros Hk. unfold run.
  rewrite (firstn_S_nth 0) by assumption.
  now rewrite fold_left_app.
Qed.

Lemma run_stop elev k :
  length (visiting_order elev) <= k -> run elev k = sweep elev.
Proof.
  intros Hk. unfold sweep, run. now rewrite !firstn_all2 by lia.
Qed.

Lemma same_shape_trans T U V (A : array T) (B : array U) (C : array V) :
  same_shape A B -> same_shape B C -> same_shape A C.
Proof. unfold same_shape. intros [-> ->] [-> ->]. now split. Qed.

Lemma ones_like_shape T (A : array T) : same_shape (ones_like A) A.
Proof.
  unfold ones_like. split; [apply nrows_tabulate | apply ncols_tabulate_same].
Qed.

Lemma ones_like_at T (A : array T) r c :
  r < nrows_of A -> c < ncols_of A -> fget (ones_like A) r c = f1.
Proof. intros Hr Hc. unfold ones_like. now rewrite fget_tabulate. Qed.

Lemma Qc0_le_1 : (Qc0 <= Qc1)%Qc.
Proof. unfold Qcle, Qc0, Qc1, Q2Qc, this. rewrite !Qred_correct. lra. Qed.

Lemma ones_like_nonneg T (A : array T) : nonneg_grid (ones_like A).
Proof.
  intros r c Hr Hc. destruct (ones_like_shape A) as [HR HC].
  rewrite ones_like_at by lia.
  exists Qc1. split; [reflexivity|apply Qc0_le_1].
Qed.

Lemma sweep_step_inv elev st i :
  positive_drops elev ->
  In i (visiting_order elev) ->
  same_shape (fst st) elev -> nonneg_grid (fst st) ->
  let st' := sweep_step elev (fst (labelFlats elev)) (combo_of elev)
               (nrows_of elev - 2) st i in
  same_shape (fst st') elev /\ nonneg_grid (fst st')
  /\ grid_le (fst st) (fst st').
Proof.
  intros Hpos Hin Hshape Hnn. destruct st as [accum curC]. simpl in Hshape, Hnn.
  unfold sweep_step. cbv zeta.
  destruct (negb (snd (key_at (combo_of elev) i) =? 0)) eqn:Hfid.
  - (* a cell of a flat *)
    destruct curC as [k|]; simpl;
      [destruct (void_nonzero k && negb (snd k =? snd (key_at (combo_of elev) i)));
       simpl|].
    + destruct (flatThing_step k (fst (labelFlats elev)) elev Hnn) as [H1 H2].
      split; [|split; assumption].
      apply (@same_shape_trans _ _ _ _ accum _); [apply flatThing_shape|assumption].
    + split; [assumption|split; [assumption|now apply grid_le_refl]].
    + split; [assumption|split; [assumption|now apply grid_le_refl]].
  - (* an ordinary cell *)
    apply negb_false_iff, Nat.eqb_eq in Hfid.
    destruct (Hpos i Hin Hfid) as (t & Ht & Htpos).
    pose proof Hin as Hint. apply visiting_order_bound in Hint.
    apply cell_of_index_interior in Hint.
    apply interior_spec in Hint. unfold cell_of_index in Hint. simpl in Hint.
    set (y := i mod (nrows_of elev - 2)) in *.
    set (x := i / (nrows_of elev - 2)) in *.
    set (st1 := match curC with
                | Some k =>
                    if void_nonzero k
                    then (flatThing k (fst (labelFlats elev)) accum elev, None)
                    else (accum, curC)
                | None => (accum, curC)
                end).
    assert (H1 : same_shape (fst st1) elev /\ nonneg_grid (fst st1)
                 /\ grid_le accum (fst st1) /\ same_shape (fst st1) accum).
    { unfold st1. destruct curC as [k|];
        [destruct (void_nonzero k)|]; simpl.
      - destruct (flatThing_step k (fst (labelFlats elev)) elev Hnn) as [Ha Hb].
        split; [|split; [|split]]; try assumption.
        + apply (@same_shape_trans _ _ _ _ accum _); [apply flatThing_shape|assumption].
        + apply flatThing_shape.
      - split; [assumption|split; [assumption|split;
          [now apply grid_le_refl|now split]]].
      - split; [assumption|split; [assumption|split;
          [now apply grid_le_refl|now split]]]. }
    destruct H1 as (Hs1 & Hn1 & Hle1 & Hsa).
    destruct Hs1 as [HR1 HC1].
    destruct (@distribute_step elev (fst st1) y x t Hn1) as [Hn2 Hle2];
      try assumption; try lia.
    simpl.
    pose proof (distribute_shape elev (fst st1) y x) as Hs2.
    split; [|split].
    + apply (@same_shape_trans _ _ _ _ (fst st1) _); [assumption|now split].
    + assumption.
    + apply grid_le_trans with (fst st1); try assumption.
Qed.

Lemma run_0 elev : run elev 0 = (ones_like elev, None).
Proof. reflexivity. Qed.

Lemma run_inv elev :
  positive_drops elev ->
  forall k, same_shape (fst (run elev k)) elev
            /\ nonneg_grid (fst (run elev k)).
Proof.
  intros Hpos. induction k as [|k [IH1 IH2]].
  - rewrite run_0. simpl. split; [apply ones_like_shape|apply ones_like_nonneg].
  - destruct (Nat.lt_ge_cases k (length (visiting_order elev))) as [Hk|Hk].
    + rewrite run_S by assumption.
      assert (Hin : In (nth k (visiting_order elev) 0) (visiting_order elev))
        by now apply nth_In.
      destruct (@sweep_step_inv elev (run elev k) _ Hpos Hin IH1 IH2)
        as (H1 & H2 & _).
      now split.
    + rewrite run_stop by lia. rewrite <- (run_stop elev Hk). now split.
Qed.

Lemma run_mono elev :
  positive_drops elev ->
  forall k, grid_le (fst (run elev k)) (fst (run elev (S k))).
Proof.
  intros Hpos k. destruct (run_inv Hpos k) as [IH1 IH2].
  destruct (Nat.lt_ge_cases k (length (visiting_order elev))) as [Hk|Hk].
  - rewrite run_S by assumption.
    assert (Hin : In (nth k (visiting_order elev) 0) (visiting_order elev))
      by now apply nth_In.
    now destruct (@sweep_step_inv elev (run elev k) _ Hpos Hin IH1 IH2)
      as (_ & _ & H).
  - rewrite (run_stop elev (k := S k)) by lia. rewrite <- (run_stop elev Hk).
    now apply grid_le_refl.
Qed.

(** ** Ordinary cells of a grid of real numbers *)

Lemma candidate_forallb source r c :
  interior (nrows_of source) (ncols_of source) r c = true ->
  forallb (fun ij =>
    fgeb (fget source (r - 1 + fst ij) (c - 1 + snd ij)) (fget source r c)) cc
  = true ->
  flat_candidate source (r, c).
Proof.
  intros Hi H. split; [assumption|].
  rewrite forallb_forall in H. apply interior_spec in Hi.
  intros [r' c'] Hn Hne. unfold near8 in Hn. simpl in *.
  specialize (H (r' + 1 - r, c' + 1 - c)). simpl in H.
  replace (r - 1 + (r' + 1 - r)) with r' in H by lia.
  replace (c - 1 + (c' + 1 - c)) with c' in H by lia.
  apply H. apply in_cc. simpl. repeat split; try lia.
  intros E. inversion E. apply Hne. f_equal; lia.
Qed.

Lemma fgeb_false_fltb a b :
  is_nan a = false -> is_nan b = false -> fgeb a b = false -> fltb a b = true.
Proof.
  destruct a as [x| | |], b as [y| | |]; simpl; try discriminate;
    try reflexivity; unfold fgeb, fleb; simpl; try discriminate.
  intros _ _. rewrite orb_false_iff.
  intros [H1 H2]. destruct (Qc_ltb x y) eqn:E; [reflexivity|].
  apply (Qc_ltb_total _ _ H1) in E. subst.
  assert (F : Qc_eqb x x = true) by now apply Qc_eqb_eq. congruence.
Qed.

Lemma Qc_add_pos_l a b : (Qc0 < a)%Qc -> (Qc0 <= b)%Qc -> (Qc0 < a + b)%Qc.
Proof.
  intros Ha Hb. unfold Qclt, Qcle, Qcplus, Qc0, Q2Qc, this in *.
  rewrite !Qred_correct in *. lra.
Qed.

Lemma pos_is_nonneg v : pos_or_inf v -> nonneg_or_inf v.
Proof. destruct v; simpl; try tauto. apply Qclt_le_weak. Qed.

Lemma fadd_pos_l a b : pos_or_inf a -> nonneg_or_inf b -> pos_or_inf (fadd a b).
Proof. destruct a, b; simpl; try tauto. apply Qc_add_pos_l. Qed.

Lemma fadd_pos_r a b : nonneg_or_inf a -> pos_or_inf b -> pos_or_inf (fadd a b).
Proof.
  destruct a, b; simpl; try tauto. intros Ha Hb.
  rewrite Qcplus_comm. now apply Qc_add_pos_l.
Qed.

Lemma fold_fadd_pos l : forall acc,
  Forall nonneg_or_inf l ->
  (pos_or_inf acc \/ (nonneg_or_inf acc /\ Exists pos_or_inf l)) ->
  pos_or_inf (fold_left fadd l acc).
Proof.
  induction l as [|v l IH]; intros acc Hl H; simpl.
  - destruct H as [H|[_ H]]; [assumption|inversion H].
  - inversion Hl as [|v' l' Hv Hl']; subst. apply IH; [assumption|].
    destruct H as [H|[Hacc H]].
    + left. now apply fadd_pos_l.
    + inversion H as [v' l' Hp|v' l' Hp]; subst.
      * left. now apply fadd_pos_r.
      * right. split; [now apply fadd_nonneg_or_inf|assumption].
Qed.

Lemma pos_or_inf_fltb v : pos_or_inf v -> fltb f0 v = true.
Proof.
  destruct v as [q| | |]; simpl; try tauto. apply Qc_ltb_lt.
Qed.

Lemma diff_pos_or_inf elev y x i j :
  fltb (win elev y x i j) (win elev y x 1 1) = true ->
  pos_or_inf (diff elev y x i j).
Proof.
  unfold diff. intros E. rewrite E.
  destruct (win elev y x i j) as [w| | |], (win elev y x 1 1) as [m| | |];
    simpl in *; try discriminate; try exact I.
  apply Qc_ltb_lt in E.
  unfold Qclt, Qcplus, Qcopp, Qc0, Q2Qc, this in *.
  rewrite !Qred_correct. lra.
Qed.

Lemma in_offsets3 a b : a < 3 -> b < 3 -> In (a, b) offsets3.
Proof.
  intros Ha Hb.
  assert (Ha' : a = 0 \/ a = 1 \/ a = 2) by lia.
  assert (Hb' : b = 0 \/ b = 1 \/ b = 2) by lia.
  destruct Ha' as [-> | [-> | ->]]; destruct Hb' as [-> | [-> | ->]];
    simpl; tauto.
Qed.

Lemma lower_cell_positive_total elev y x a b :
  a < 3 -> b < 3 ->
  fltb (win elev y x a b) (win elev y x 1 1) = true ->
  fltb f0 (diff_sum elev y x) = true.
Proof.
  intros Ha Hb Hlow. apply pos_or_inf_fltb. unfold diff_sum, fsum.
  apply fold_fadd_pos.
  - apply Forall_forall. intros v Hv. apply in_map_iff in Hv.
    destruct Hv as ([i' j'] & <- & _). apply diff_nonneg_or_inf.
  - right. split; [apply Qcle_refl|].
    apply Exists_exists. exists (diff elev y x a b). split.
    + apply in_map_iff. exists (a, b). split; [reflexivity|].
      now apply in_offsets3.
    + now apply diff_pos_or_inf.
Qed.

Lemma ordinary_cell_lower_neighbour elev i :
  no_nan_grid elev ->
  In i (visiting_order elev) ->
  snd (key_at (combo_of elev) i) = 0 ->
  exists a b, a < 3 /\ b < 3 /\
    fltb (win elev (i mod (nrows_of elev - 2)) (i / (nrows_of elev - 2)) a b)
         (win elev (i mod (nrows_of elev - 2)) (i / (nrows_of elev - 2)) 1 1)
    = true.
Proof.
  intros Hnan Hin Hfid.
  pose proof (visiting_order_bound _ _ Hin) as Hb.
  pose proof (cell_of_index_interior _ _ Hb) as Hint.
  rewrite key_at_combo in Hfid by assumption. simpl in Hfid.
  unfold cell_of_index in Hint. simpl in Hint.
  set (y := i mod (nrows_of elev - 2)) in *.
  set (x := i / (nrows_of elev - 2)) in *.
  pose proof Hint as Hint'. apply interior_spec in Hint'.
  destruct (forallb (fun ij =>
      fgeb (fget elev (y + 1 - 1 + fst ij) (x + 1 - 1 + snd ij))
           (fget elev (y + 1) (x + 1))) cc) eqn:Hall.
  { apply (candidate_forallb _ _ _ Hint) in Hall.
    apply labelFlats_positive in Hall. simpl in Hall. contradiction. }
  apply forallb_false_ex in Hall. destruct Hall as ([a b] & Hab & Hlow).
  apply in_cc in Hab. simpl in Hab, Hlow.
  replace (y + 1 - 1 + a) with (y + a) in Hlow by lia.
  replace (x + 1 - 1 + b) with (x + b) in Hlow by lia.
  apply fgeb_false_fltb in Hlow; try (apply Hnan; lia).
  exists a, b. repeat split; try lia. exact Hlow.
Qed.

Lemma tame_drops_positive elev : tame_drops elev -> positive_drops elev.
Proof.
  intros H i Hin Hfid. destruct (H i Hin Hfid) as (t & Ht & Hpos & _).
  exists t. now split.
Qed.

(** ** The sample grids *)

(* From here on every argument is written out: computing which arguments
   can be left implicit would evaluate the sweep on the sample grids. *)
Unset Implicit Arguments.

Lemma E_ridge_order : visiting_order E_ridge = [0; 2; 1].
Proof. vm_compute. reflexivity. Qed.

Lemma E_ridge_drop_0 :
  exists t,
    diff_sum E_ridge (0 mod (nrows_of E_ridge - 2)) (0 / (nrows_of E_ridge - 2))
    = Fin t /\ (Qc0 < t)%Qc /\ (t <= float_bound)%Qc.
Proof.
  exists (Q2Qc 2%Q). split; [|split].
  - apply fval_eqb_eq. vm_compute. reflexivity.
  - unfold Qclt. vm_compute. reflexivity.
  - unfold Qcle. vm_compute. discriminate.
Qed.

Lemma E_ridge_flat_1 : snd (key_at (combo_of E_ridge) 1) = 1.
Proof. vm_compute. reflexivity. Qed.

Lemma E_ridge_flat_2 : snd (key_at (combo_of E_ridge) 2) = 1.
Proof. vm_compute. reflexivity. Qed.

Lemma E_ridge_tame_drops : tame_drops E_ridge.
Proof.
  intros i Hin. rewrite E_ridge_order in Hin.
  destruct Hin as [<-|[<-|[<-|[]]]].
  - intros _. exact E_ridge_drop_0.
  - rewrite E_ridge_flat_2. discriminate.
  - rewrite E_ridge_flat_1. discriminate.
Qed.

Lemma E_ridge_no_nan : no_nan_grid E_ridge.
Proof.
  intros r c Hr Hc. vm_compute in Hr, Hc.
  do 3 (destruct r as [|r];
        [do 5 (destruct c as [|c]; [reflexivity|]); lia|]).
  lia.
Qed.

(** * The claims *)

(** ** Flat resolution ([flatThing]) *)

(** C5 - After a flat region is resolved, every member cell of the region
    holds one and the same value, the zonal sum of the region: the sum of the
    members' accumulated values at the moment of resolution, not divided by
    the number of members. *)
Theorem flatThing_members_hold_zonal_sum
  (e_c : key) (flats : array nat) (accum elev : array fval) (r c : nat) :
  nrows_of flats = nrows_of accum ->
  ncols_of flats = ncols_of accum ->
  r < nrows_of accum -> c < ncols_of accum ->
  nget flats r c = snd e_c ->
  fget (flatThing e_c flats accum elev) r c
  = fsum (map (fun p => fget accum (fst p) (snd p))
              (filter (fun p => nget flats (fst p) (snd p) =? snd e_c)
                      (cells (nrows_of accum) (ncols_of accum)))).
Proof.
  intros HR HC Hr Hc Hm.
  rewrite flatThing_at by assumption.
  rewrite flat_members_at, HR, HC, in_box_true by assumption.
  rewrite Hm, Nat.eqb_refl. simpl.
  unfold masked. do 2 f_equal.
  apply filter_ext_in. intros [r' c'] Hin. simpl.
  apply in_cells in Hin. destruct Hin.
  rewrite flat_members_at, HR, HC, in_box_true by assumption.
  reflexivity.
Qed.

Lemma flatThing_members_hold_zonal_sum_witness :
  let flats := [[0;0;0;0];[0;1;1;0];[0;0;0;0]] in
  let accum := [[f1;f1;f1;f1];[f1;qv 2 1;qv 3 1;f1];[f1;f1;f1;f1]] in
  fget (flatThing (f1, 1) flats accum accum) 1 2 = qv 5 1.
Proof.
  intros flats accum.
  transitivity
    (fsum (map (fun p => fget accum (fst p) (snd p))
             (filter (fun p => nget flats (fst p) (snd p) =? 1)
                (cells (nrows_of accum) (ncols_of accum))))).
  - apply (@flatThing_members_hold_zonal_sum (f1, 1) flats accum accum 1 2).
    + reflexivity.
    + reflexivity.
    + vm_compute; lia.
    + vm_compute; lia.
    + reflexivity.
  - apply fval_eqb_eq. vm_compute. reflexivity.
Defined.

(** C6 - When no cell of the ring around a flat region has an elevation
    at most the flat's elevation (zero pour points), resolving the region
    distributes nothing: every cell outside the region keeps its value, the
    members receive the zonal sum, and the quotient by zero is written
    nowhere, so a grid of finite values stays finite. *)
Theorem flatThing_without_pour_point
  (e_c : key) (flats : array nat) (accum elev : array fval) :
  nrows_of flats = nrows_of accum ->
  ncols_of flats = ncols_of accum ->
  (forall r c, bget (flat_ring (flat_members flats (snd e_c))) r c = true ->
               fleb (fget elev r c) (fst e_c) = false) ->
  count_true (pour_points (flat_members flats (snd e_c)) elev (fst e_c)) = 0
  /\ (forall r c, r < nrows_of accum -> c < ncols_of accum ->
        fget (flatThing e_c flats accum elev) r c
        = if nget flats r c =? snd e_c
          then zonal_sum flats (snd e_c) accum
          else fget accum r c)
  /\ ((forall r c, r < nrows_of accum -> c < ncols_of accum ->
                   is_fin (fget accum r c) = true) ->
      forall r c, r < nrows_of accum -> c < ncols_of accum ->
                  is_fin (fget (flatThing e_c flats accum elev) r c) = true).
Proof.
  intros HR HC Hno.
  assert (HP : forall r c,
    bget (pour_points (flat_members flats (snd e_c)) elev (fst e_c)) r c
    = false).
  { intros r c. rewrite pour_points_ring.
    destruct (bget (flat_ring _) r c) eqn:E; [|reflexivity].
    now rewrite (Hno _ _ E). }
  assert (Hat : forall r c, r < nrows_of accum -> c < ncols_of accum ->
    fget (flatThing e_c flats accum elev) r c
    = if nget flats r c =? snd e_c
      then zonal_sum flats (snd e_c) accum
      else fget accum r c).
  { intros r c Hr Hc. rewrite flatThing_at by assumption.
    rewrite HP, flat_members_at, HR, HC, in_box_true by assumption.
    reflexivity. }
  split; [|split].
  - rewrite count_true_cells.
    destruct (true_cells _) as [|[r c] l] eqn:E; [reflexivity|].
    assert (Hin : In (r, c) (true_cells
      (pour_points (flat_members flats (snd e_c)) elev (fst e_c))))
      by (rewrite E; now left).
    apply in_true_cells in Hin. destruct Hin as (_ & _ & Hin).
    now rewrite HP in Hin.
  - exact Hat.
  - intros Hfin r c Hr Hc. rewrite Hat by assumption.
    destruct (nget flats r c =? snd e_c);
      [now apply zonal_sum_fin | now apply Hfin].
Qed.

(** C4 - The cells that receive the outlet flow of a resolved flat region
    are exactly the cells outside the member set, with a member in their
    3 by 3 window, whose elevation is at most the flat's elevation; each of
    them has the zonal sum divided by their number added to its value, every
    other cell outside the region is unchanged, and with at least one pour
    point the amounts added sum to the zonal sum. *)
Theorem flatThing_pour_points
  (e_c : key) (flats : array nat) (accum elev : array fval) :
  let R := nrows_of accum in
  let C := ncols_of accum in
  let P := pour_points (flat_members flats (snd e_c)) elev (fst e_c) in
  let cSum := zonal_sum flats (snd e_c) accum in
  let share := fdiv cSum (of_nat (length (true_cells P))) in
  nrows_of flats = R ->
  ncols_of flats = C ->
  (forall r c,
     bget P r c = true <->
     r < R /\ c < C /\ nget flats r c <> snd e_c /\
     (exists q, near8 (r, c) q /\ fst q < R /\ snd q < C /\
                nget flats (fst q) (snd q) = snd e_c) /\
     fleb (fget elev r c) (fst e_c) = true)
  /\ (forall r c, r < R -> c < C -> nget flats r c <> snd e_c ->
        fget (flatThing e_c flats accum elev) r c
        = if bget P r c then fadd (fget accum r c) share
          else fget accum r c)
  /\ (forall s, cSum = Fin s -> 1 <= length (true_cells P) ->
        fsum (map (fun _ => share) (true_cells P)) = cSum).
Proof.
  intros R C P cSum share HR HC. split; [|split].
  - intros r c. unfold P. rewrite pour_points_ring, andb_true_iff.
    rewrite flat_ring_spec, nrows_flat_members, ncols_flat_members.
    rewrite flat_members_at, HR, HC. fold R C.
    split.
    + intros [(Hr & Hc & Hm & q & Hn & Hq) Hle].
      rewrite in_box_true in Hm by assumption. simpl in Hm.
      apply Nat.eqb_neq in Hm.
      rewrite flat_members_at, HR, HC in Hq. fold R C in Hq.
      apply andb_true_iff in Hq. destruct Hq as [Hbox Hq].
      unfold in_box in Hbox. apply andb_true_iff in Hbox.
      destruct Hbox as [Hq1 Hq2].
      apply Nat.ltb_lt in Hq1. apply Nat.ltb_lt in Hq2.
      apply Nat.eqb_eq in Hq.
      repeat split; try assumption. exists q. auto.
    + intros (Hr & Hc & Hm & (q & Hn & Hq1 & Hq2 & Hq) & Hle).
      split; [|assumption]. repeat split; try assumption.
      * rewrite in_box_true by assumption. simpl. now apply Nat.eqb_neq.
      * exists q. split; [assumption|].
        rewrite flat_members_at, HR, HC. fold R C.
        rewrite in_box_true by assumption. simpl. now apply Nat.eqb_eq.
  - intros r c Hr Hc Hm. rewrite flatThing_at by assumption.
    rewrite flat_members_at.
    apply Nat.eqb_neq in Hm. rewrite Hm, andb_false_r.
    reflexivity.
  - intros s Hs Hk. unfold share. rewrite Hs.
    rewrite fdiv_of_nat by lia. rewrite map_const_repeat, fsum_const.
    f_equal. field. apply Qc_of_nat_nonzero. lia.
Qed.

(** ** The step of an ordinary cell ([distribute]) *)

(** C10 - When the total downslope drop of an ordinary cell is strictly
    positive, the step leaves the cell's own accumulated value unchanged: the
    drop of the centre of the window is zero, so the cell keeps the flow that
    it passes on to its lower neighbours. *)
Theorem distribute_keeps_centre (elev accum : array fval) (y x : nat) :
  y + 1 < nrows_of accum -> x + 1 < ncols_of accum ->
  fltb f0 (diff_sum elev y x) = true ->
  is_fin (fget accum (y + 1) (x + 1)) = true ->
  diff elev y x 1 1 = f0
  /\ fget (distribute elev accum y x) (y + 1) (x + 1)
     = fget accum (y + 1) (x + 1).
Proof.
  intros Hr Hc Hpos Hfin. split; [apply diff_centre|].
  rewrite distribute_window by (assumption || lia).
  rewrite diff_centre.
  destruct (fget accum (y + 1) (x + 1)) as [a| | |]; try discriminate.
  destruct (diff_sum elev y x) as [t| | |]; try discriminate.
  - apply fltb_f0_Fin in Hpos. simpl. rewrite (Qc_pos_eqb Hpos). simpl.
    f_equal. unfold Qc0. field. now apply Qc_pos_neq.
  - simpl. f_equal. unfold Qc0. ring.
Qed.

(** C3 - When the total downslope drop of an ordinary cell is strictly
    positive, the step adds [A[centre] * drop[n] / total] to every cell [n]
    of the 3 by 3 window and touches no other cell, and the amounts added
    over the window sum to the centre's accumulated value at the time of the
    step (exact arithmetic on real values). *)
Theorem distribute_conserves (elev accum : array fval) (y x : nat) :
  let centre := fget accum (y + 1) (x + 1) in
  let total := diff_sum elev y x in
  let share i j := fdiv (fmul centre (diff elev y x i j)) total in
  y + 2 < nrows_of accum -> x + 2 < ncols_of accum ->
  (forall i j, i < 3 -> j < 3 -> is_fin (win elev y x i j) = true) ->
  is_fin centre = true ->
  fltb f0 total = true ->
  (forall i j, i < 3 -> j < 3 ->
     fget (distribute elev accum y x) (y + i) (x + j)
     = fadd (fget accum (y + i) (x + j)) (share i j))
  /\ (forall r c, r < nrows_of accum -> c < ncols_of accum ->
        ~ (y <= r < y + 3 /\ x <= c < x + 3) ->
        fget (distribute elev accum y x) r c = fget accum r c)
  /\ fsum (map (fun d => share (fst d) (snd d)) offsets3) = centre.
Proof.
  intros centre total share Hr Hc Hwin Hfin Hpos.
  pose (d := fun i j => fin_part (diff elev y x i j)).
  assert (Hd : forall i j, i < 3 -> j < 3 ->
                 diff elev y x i j = Fin (d i j)).
  { intros i j Hi Hj. apply is_fin_Fin. apply diff_fin; apply Hwin; lia. }
  assert (Ht : total = Fin (window_sum d)) by now apply diff_sum_fin.
  rewrite Ht in Hpos. apply fltb_f0_Fin in Hpos.
  destruct centre as [a| | |] eqn:Ea; try discriminate.
  assert (Hshare : forall i j, i < 3 -> j < 3 ->
    share i j = Fin (a * d i j / window_sum d)%Qc).
  { intros i j Hi Hj. unfold share. rewrite Ht, Hd by assumption.
    now apply share_fin. }
  split; [|split].
  - intros i j Hi Hj. rewrite distribute_window by (assumption || lia).
    f_equal. fold total. fold centre. rewrite Ea.
    unfold share. rewrite Ht, Hd by assumption.
    now apply share_exact.
  - intros r c Hr' Hc' Hout. rewrite distribute_at by assumption.
    destruct ((y <=? r) && (r <? y + 3) && (x <=? c) && (c <? x + 3)) eqn:E;
      [|reflexivity].
    rewrite !andb_true_iff, !Nat.leb_le, !Nat.ltb_lt in E. lia.
  - transitivity (Fin (window_sum (fun i j => a * d i j / window_sum d)%Qc));
      [|f_equal; now apply window_shares_sum].
    rewrite <- fsum_window. f_equal.
    apply map_ext_in. intros [i j] Hin. simpl.
    apply Hshare.
    + simpl in Hin. repeat (destruct Hin as [Hin|Hin];
        [inversion Hin; subst; lia|]). contradiction.
    + simpl in Hin. repeat (destruct Hin as [Hin|Hin];
        [inversion Hin; subst; lia|]). contradiction.
Qed.

(** ** Flat labelling ([labelFlats]) *)

(** C8 - [labelFlats] gives a positive label to a cell exactly when the cell
    is an inner cell all 8 of whose neighbours are at least as high as it;
    two labelled cells carry the same id exactly when a chain of 8-adjacent
    flat candidates joins them, so the ids are those of the maximal
    8-connected regions; the ids are the integers from 1 to the returned
    count; and every other cell, the outer border included, is labelled 0. *)
Theorem labelFlats_spec (elev : array fval) :
  let L := fst (labelFlats elev) in
  let num := snd (labelFlats elev) in
  (forall p, nget L (fst p) (snd p) <> 0 <-> flat_candidate elev p)
  /\ (forall p q,
        nget L (fst p) (snd p) <> 0 -> nget L (fst q) (snd q) <> 0 ->
        (nget L (fst p) (snd p) = nget L (fst q) (snd q)
         <-> chain (flat_candidate elev) p q))
  /\ (forall r c,
        interior (nrows_of elev) (ncols_of elev) r c = false ->
        nget L r c = 0)
  /\ (forall p, nget L (fst p) (snd p) <= num)
  /\ (forall id, 1 <= id <= num -> exists p, nget L (fst p) (snd p) = id).
Proof.
  intros L num. unfold L, num, labelFlats.
  destruct (label_spec (flat_mask elev)) as [[Hfg Hle Hconn Hclosed Hused] Hall].
  assert (Hiff : forall p, nget (fst (label (flat_mask elev))) (fst p) (snd p)
                           <> 0 <-> flat_candidate elev p).
  { intros p. rewrite <- fg_flat_mask. split; [apply Hfg|apply Hall]. }
  split; [exact Hiff|]. split; [|split; [|split]].
  - intros p q Hp Hq. rewrite (Hconn p q Hp Hq). unfold connected.
    split; apply chain_ext; intros x;
      [apply fg_flat_mask | symmetry; apply fg_flat_mask].
  - intros r c Hi.
    destruct (Nat.eq_dec (nget (fst (label (flat_mask elev))) r c) 0)
      as [E|E]; [assumption|].
    apply (Hiff (r, c)) in E. destruct E as [E _]. simpl in E. congruence.
  - exact Hle.
  - exact Hused.
Qed.

(** ** The visiting order *)

(** C7 - The visiting order is a permutation of the indices of the inner
    cells, [0] to [(R-2)*(C-2) - 1]; every index stands for one cell inside
    the border, different indices for different cells and every inner cell
    for some index; and the cells that share a positive flat id occupy
    consecutive positions of the order. *)
Theorem visiting_order_spec (elev : array fval) :
  let R := nrows_of elev in
  let C := ncols_of elev in
  let order := visiting_order elev in
  let cell i := cell_of_index (R - 2) i in
  let fid i := nget (fst (labelFlats elev)) (fst (cell i)) (snd (cell i)) in
  Permutation order (seq 0 ((R - 2) * (C - 2)))
  /\ (forall i, In i order -> interior R C (fst (cell i)) (snd (cell i)) = true)
  /\ (forall i j, cell i = cell j -> i = j)
  /\ (forall r c, interior R C r c = true ->
        exists i, In i order /\ cell i = (r, c))
  /\ (forall i, In i order -> snd (key_at (combo_of elev) i) = fid i)
  /\ (forall p q r, p < q -> q < r -> r < length order ->
        fid (nth p order 0) <> 0 ->
        fid (nth p order 0) = fid (nth r order 0) ->
        fid (nth q order 0) = fid (nth p order 0)).
Proof.
  intros R C order cell fid.
  assert (Hperm : Permutation order (seq 0 ((C - 2) * (R - 2))))
    by apply visiting_order_perm.
  assert (Hkey : forall i, In i order ->
                   snd (key_at (combo_of elev) i) = fid i).
  { intros i Hi. apply visiting_order_bound in Hi.
    now rewrite key_at_combo. }
  assert (Hnth : forall p, p < length order -> In (nth p order 0) order)
    by (intros p Hp; now apply nth_In).
  split; [|split; [|split; [|split; [|split]]]].
  - now rewrite Nat.mul_comm.
  - intros i Hi. apply cell_of_index_interior.
    now apply visiting_order_bound.
  - intros i j. apply cell_of_index_inj.
  - intros r c Hi. destruct (cell_of_index_onto _ _ _ _ Hi) as (i & Hlt & E).
    exists i. split; [|exact E].
    apply (Permutation_in _ (Permutation_sym Hperm)). apply in_seq. lia.
  - exact Hkey.
  - intros p q r Hpq Hqr Hr Hne E.
    rewrite <- !Hkey in * by (apply Hnth; lia).
    assert (Ekey : key_at (combo_of elev) (nth p order 0)
                   = key_at (combo_of elev) (nth r order 0)).
    { apply same_flat_same_key; try assumption;
        apply visiting_order_bound; apply Hnth; lia. }
    assert (H1 : key_le (key_at (combo_of elev) (nth q order 0))
                        (key_at (combo_of elev) (nth p order 0)))
      by (apply visiting_order_descending; fold order; lia).
    assert (H2 : key_le (key_at (combo_of elev) (nth r order 0))
                        (key_at (combo_of elev) (nth q order 0)))
      by (apply visiting_order_descending; fold order; lia).
    rewrite <- Ekey in H2.
    now rewrite (key_le_antisym H1 H2).
Qed.

(** ** The sweep ([multipath]) *)

(** C9, as the code has it - When every ordinary cell visited by the sweep
    has a total downslope drop that is strictly positive and finite, with no
    overflow (at most [float_bound]), the accumulation starts at 1.0 in
    every cell and no round of the loop lowers the value of any cell: the
    values after round [k + 1] are at least the values after round [k]. *)
Theorem sweep_never_decreases (elev : array fval) :
  tame_drops elev ->
  forall k r c, r < nrows_of elev -> c < ncols_of elev ->
    fget (fst (run elev 0)) r c = f1
    /\ fleb (fget (fst (run elev k)) r c) (fget (fst (run elev (S k))) r c)
       = true.
Proof.
  intros Htame k r c Hr Hc.
  pose proof (@tame_drops_positive elev Htame) as Hpos. split.
  - rewrite run_0. simpl. now apply ones_like_at.
  - destruct (run_inv Hpos k) as [[HR HC] _].
    apply (run_mono Hpos k); lia.
Qed.

Lemma sweep_never_decreases_witness :
  fget (fst (run E_ridge 0)) 1 2 = f1
  /\ fleb (fget (fst (run E_ridge 0)) 1 2) (fget (fst (run E_ridge 1)) 1 2)
     = true.
Proof.
  apply (sweep_never_decreases E_ridge E_ridge_tame_drops 0).
  - vm_compute. lia.
  - vm_compute. lia.
Defined.

(** C9, as stated, fails - The only inner cell of [E_minf] is ordinary and
    its total downslope drop is strictly positive: it is [+inf], because a
    neighbour lies at [-inf].  The step divides [+inf] by [+inf]: the value
    of that neighbour, 1.0 before the round, is a NaN after it, which is not
    at least 1.0. *)
Lemma infinite_drop_writes_nan :
  visiting_order E_minf = [0]
  /\ snd (key_at (combo_of E_minf) 0) = 0
  /\ diff_sum E_minf 0 0 = PInf
  /\ fltb f0 (diff_sum E_minf 0 0) = true
  /\ fget (fst (run E_minf 0)) 2 2 = f1
  /\ fget (fst (run E_minf 1)) 2 2 = NaN
  /\ fleb (fget (fst (run E_minf 0)) 2 2) (fget (fst (run E_minf 1)) 2 2)
     = false.
Proof.
  repeat split; vm_compute; reflexivity.
Qed.

(** C2, as the code has it - On a grid without NaN elevation every ordinary
    cell that the sweep visits has a strictly lower cell in its window, and
    its total downslope drop compares strictly greater than zero (it may be
    [+inf]): a zero total arises only from a NaN elevation.  The step itself
    has no guard for a zero total. *)
Theorem ordinary_cells_have_a_lower_neighbour (elev : array fval) (i : nat) :
  no_nan_grid elev ->
  In i (visiting_order elev) ->
  snd (key_at (combo_of elev) i) = 0 ->
  let y := i mod (nrows_of elev - 2) in
  let x := i / (nrows_of elev - 2) in
  (exists a b, a < 3 /\ b < 3 /\
     fltb (win elev y x a b) (win elev y x 1 1) = true)
  /\ fltb f0 (diff_sum elev y x) = true
  /\ feqb (diff_sum elev y x) f0 = false.
Proof.
  intros Hnan Hin Hfid y x.
  destruct (@ordinary_cell_lower_neighbour elev i Hnan Hin Hfid)
    as (a & b & Ha & Hb & Hlow).
  fold y x in Hlow.
  pose proof (@lower_cell_positive_total elev y x a b Ha Hb Hlow) as Hpos.
  split; [now exists a, b|]. split; [assumption|].
  destruct (diff_sum elev y x) as [t| | |]; try discriminate; try reflexivity.
  apply fltb_f0_Fin in Hpos. simpl. now apply Qc_pos_eqb.
Qed.

Lemma ordinary_cells_have_a_lower_neighbour_witness :
  (exists a b, a < 3 /\ b < 3 /\
     fltb (win E_ridge (0 mod (nrows_of E_ridge - 2))
                       (0 / (nrows_of E_ridge - 2)) a b)
          (win E_ridge (0 mod (nrows_of E_ridge - 2))
                       (0 / (nrows_of E_ridge - 2)) 1 1) = true)
  /\ fltb f0 (diff_sum E_ridge (0 mod (nrows_of E_ridge - 2))
                               (0 / (nrows_of E_ridge - 2))) = true
  /\ feqb (diff_sum E_ridge (0 mod (nrows_of E_ridge - 2))
                            (0 / (nrows_of E_ridge - 2))) f0 = false.
Proof.
  apply (ordinary_cells_have_a_lower_neighbour E_ridge 0 E_ridge_no_nan).
  - rewrite E_ridge_order. simpl. tauto.
  - vm_compute. reflexivity.
Defined.

(** C2, as stated, fails - The only inner cell of [E_nan] is not labelled
    flat, the sweep visits it, its total downslope drop is zero, and the
    unguarded step divides zero by zero: every cell of its window, which
    held 1.0, ends as a NaN. *)
Lemma zero_total_writes_nan :
  visiting_order E_nan = [0]
  /\ snd (key_at (combo_of E_nan) 0) = 0
  /\ diff_sum E_nan 0 0 = f0
  /\ (forall r c, r < 3 -> c < 3 -> fget (fst (run E_nan 0)) r c = f1)
  /\ (forall r c, r < 3 -> c < 3 -> fget (multipath E_nan) r c = NaN).
Proof.
  split; [vm_compute; reflexivity|].
  split; [vm_compute; reflexivity|].
  split; [vm_compute; reflexivity|].
  split; intros r c Hr Hc;
    do 3 (destruct r as [|r];
          [do 3 (destruct c as [|c]; [vm_compute; reflexivity|]); lia|]);
    lia.
Qed.

(** C1, the code at a failing input - On [E_ridge] the visiting order ends
    inside flat 1.  [multipath] returns with that flat still open: its two
    members hold 2 and 1 instead of the zonal sum 3, and the pour point at
    the border still holds 1; one more call of [flatThing] on the returned
    grid would give 3, 3 and 4. *)
Theorem last_flat_left_unresolved :
  option_map snd (snd (sweep E_ridge)) = Some 1
  /\ multipath E_ridge
     = grid_of_Z [[1;1;1;1;1]; [1;1;2;1;1]; [1;1;1;1;1]]%Z
  /\ flatThing (qv 5 1, 1) (fst (labelFlats E_ridge)) (multipath E_ridge)
               E_ridge
     = grid_of_Z [[1;1;1;1;1]; [1;1;3;3;4]; [1;1;1;1;1]]%Z.
Proof.
  split; [vm_compute; reflexivity|].
  split; apply array_eqb_eq; vm_compute; reflexivity.
Qed.

(** ** Instances on the sample grids *)

Lemma E_ridge_window_finite :
  forall i j, i < 3 -> j < 3 -> is_fin (win E_ridge 0 0 i j) = true.
Proof.
  intros i j Hi Hj.
  do 3 (destruct i as [|i];
        [do 3 (destruct j as [|j]; [reflexivity|]); lia|]).
  lia.
Qed.

Lemma distribute_keeps_centre_witness :
  diff E_ridge 0 0 1 1 = f0
  /\ fget (distribute E_ridge (ones_like E_ridge) 0 0) (0 + 1) (0 + 1)
     = fget (ones_like E_ridge) (0 + 1) (0 + 1).
Proof.
  apply distribute_keeps_centre.
  - vm_compute. lia.
  - vm_compute. lia.
  - vm_compute. reflexivity.
  - vm_compute. reflexivity.
Defined.

Lemma distribute_conserves_witness :
  let accum := ones_like E_ridge in
  let centre := fget accum (0 + 1) (0 + 1) in
  let total := diff_sum E_ridge 0 0 in
  fget (distribute E_ridge accum 0 0) (0 + 1) (0 + 2)
  = fadd (fget accum (0 + 1) (0 + 2))
         (fdiv (fmul centre (diff E_ridge 0 0 1 2)) total)
  /\ fsum (map (fun d =>
             fdiv (fmul centre (diff E_ridge 0 0 (fst d) (snd d))) total)
           offsets3)
     = centre.
Proof.
  intros accum centre total.
  pose proof (distribute_conserves E_ridge accum 0 0) as H.
  cbv zeta in H.
  destruct H as (H1 & _ & H3).
  - vm_compute. lia.
  - vm_compute. lia.
  - exact E_ridge_window_finite.
  - vm_compute. reflexivity.
  - vm_compute. reflexivity.
  - split; [apply H1; lia|exact H3].
Defined.

Lemma flatThing_pour_points_witness :
  let flats := fst (labelFlats E_ridge) in
  let accum := ones_like E_ridge in
  let P := pour_points (flat_members flats 1) E_ridge (qv 5 1) in
  fget (flatThing (qv 5 1, 1) flats accum E_ridge) 1 4
  = if bget P 1 4
    then fadd (fget accum 1 4)
           (fdiv (zonal_sum flats 1 accum) (of_nat (length (true_cells P))))
    else fget accum 1 4.
Proof.
  intros flats accum P.
  pose proof (flatThing_pour_points (qv 5 1, 1) flats accum E_ridge) as H.
  cbv zeta in H.
  destruct H as (_ & H2 & _).
  - vm_compute. reflexivity.
  - vm_compute. reflexivity.
  - apply (H2 1 4).
    + vm_compute. lia.
    + vm_compute. lia.
    + vm_compute. discriminate.
Defined.

Lemma E_sink_ring_is_higher :
  forall r c,
    bget (flat_ring (flat_members (fst (labelFlats E_sink)) 1)) r c = true ->
    fleb (fget E_sink r c) (qv 5 1) = false.
Proof.
  intros r c H. apply flat_ring_spec in H. destruct H as (Hr & Hc & Hm & _).
  assert (ER : nrows_of (flat_members (fst (labelFlats E_sink)) 1) = 3)
    by (vm_compute; reflexivity).
  assert (EC : ncols_of (flat_members (fst (labelFlats E_sink)) 1) = 3)
    by (vm_compute; reflexivity).
  rewrite ER in Hr. rewrite EC in Hc.
  do 3 (destruct r as [|r];
        [do 3 (destruct c as [|c];
               [first [ vm_compute; reflexivity
                      | exfalso; revert Hm; vm_compute; discriminate ]|]);
         lia|]).
  lia.
Qed.

Lemma flatThing_without_pour_point_witness :
  let flats := fst (labelFlats E_sink) in
  let accum := ones_like E_sink in
  count_true (pour_points (flat_members flats 1) E_sink (qv 5 1)) = 0
  /\ fget (flatThing (qv 5 1, 1) flats accum E_sink) 0 0
     = if nget flats 0 0 =? 1 then zonal_sum flats 1 accum
       else fget accum 0 0.
Proof.
  intros flats accum.
  destruct (flatThing_without_pour_point (qv 5 1, 1) flats accum E_sink)
    as (H1 & H2 & _).
  - vm_compute. reflexivity.
  - vm_compute. reflexivity.
  - exact E_sink_ring_is_higher.
  - split; [exact H1|]. apply (H2 0 0).
    + vm_compute. lia.
    + vm_compute. lia.
Defined.

(** * Further properties of the code *)

(** ** Shapes and small grids *)

Lemma sweep_step_shape (elev : array fval) (flats : array nat)
  (combo : list key) (nrows : nat) (st : state) (i : nat) :
  same_shape (fst (sweep_step elev flats combo nrows st i)) (fst st).
Proof.
  destruct st as [accum curC]. unfold sweep_step. cbv zeta.
  destruct (negb (snd (key_at combo i) =? 0)).
  - destruct curC as [k|]; simpl;
      [destruct (void_nonzero k && negb (snd k =? snd (key_at combo i)));
       simpl|]; first [apply flatThing_shape | now split].
  - simpl. eapply same_shape_trans; [apply distribute_shape|].
    destruct curC as [k|]; [destruct (void_nonzero k)|]; simpl;
      first [apply flatThing_shape | now split].
Qed.

Lemma fold_sweep_shape (elev : array fval) (flats : array nat)
  (combo : list key) (nrows : nat) (l : list nat) :
  forall st,
    same_shape
      (fst (fold_left (sweep_step elev flats combo nrows) l st)) (fst st).
Proof.
  induction l as [|i l IH]; intros st; simpl; [now split|].
  eapply same_shape_trans; [apply IH|apply sweep_step_shape].
Qed.

(** The result of [multipath] has the shape of the elevation grid, whatever
    the elevations are. *)
Theorem multipath_shape (elev : array fval) :
  nrows_of (multipath elev) = nrows_of elev
  /\ ncols_of (multipath elev) = ncols_of elev.
Proof.
  unfold multipath, sweep, run.
  pose proof (fold_sweep_shape elev (fst (labelFlats elev)) (combo_of elev)
                (nrows_of elev - 2)
                (firstn (length (visiting_order elev)) (visiting_order elev))
                (ones_like elev, None)) as H.
  simpl in H. exact (same_shape_trans H (ones_like_shape elev)).
Qed.

(** A grid with fewer than three rows or fewer than three columns has no
    inner cell: the visiting order is empty, the loop body never runs, and
    [multipath] returns 1.0 in every cell. *)
Theorem multipath_without_inner_cell (elev : array fval) :
  nrows_of elev < 3 \/ ncols_of elev < 3 ->
  visiting_order elev = []
  /\ multipath elev = ones_like elev.
Proof.
  intros H.
  assert (E : visiting_order elev = []).
  { apply length_zero_iff_nil. rewrite visiting_order_length.
    destruct H as [H|H].
    - replace (nrows_of elev - 2) with 0 by lia. lia.
    - replace (ncols_of elev - 2) with 0 by lia. lia. }
  split; [exact E|].
  unfold multipath, sweep, run. rewrite E. reflexivity.
Qed.

Lemma multipath_without_inner_cell_witness :
  visiting_order [[f1; f1; f1]; [f1; f1; f1]] = []
  /\ multipath [[f1; f1; f1]; [f1; f1; f1]]
     = ones_like [[f1; f1; f1]; [f1; f1; f1]].
Proof.
  apply multipath_without_inner_cell. left. simpl. lia.
Defined.

(** ** The records and the order of the visit *)

(** The record at index [i] of [combo] belongs to the cell on which the loop
    centres its window: with [y = i % nrows] and [x = i / nrows], the record
    holds [win[1,1]] (the elevation of [(y+1, x+1)]) and the flat id of that
    cell.  The column-major flattening and the decoding of the index agree. *)
Theorem combo_record_of_window_centre (elev : array fval) (i : nat) :
  In i (visiting_order elev) ->
  let y := i mod (nrows_of elev - 2) in
  let x := i / (nrows_of elev - 2) in
  key_at (combo_of elev) i
  = (win elev y x 1 1, nget (fst (labelFlats elev)) (y + 1) (x + 1))
  /\ y + 2 < nrows_of elev /\ x + 2 < ncols_of elev.
Proof.
  intros Hin y x. pose proof (@visiting_order_bound elev i Hin) as Hb.
  split; [now apply key_at_combo|].
  pose proof (@cell_of_index_interior (nrows_of elev) (ncols_of elev) i Hb)
    as Hi.
  apply interior_spec in Hi. unfold cell_of_index in Hi. simpl in Hi.
  fold y x in Hi. lia.
Qed.

Lemma combo_record_of_window_centre_witness :
  key_at (combo_of E_ridge) 2
  = (win E_ridge (2 mod (nrows_of E_ridge - 2)) (2 / (nrows_of E_ridge - 2)) 1 1,
     nget (fst (labelFlats E_ridge))
          (2 mod (nrows_of E_ridge - 2) + 1) (2 / (nrows_of E_ridge - 2) + 1))
  /\ 2 mod (nrows_of E_ridge - 2) + 2 < nrows_of E_ridge
  /\ 2 / (nrows_of E_ridge - 2) + 2 < ncols_of E_ridge.
Proof.
  apply (combo_record_of_window_centre E_ridge 2).
  rewrite E_ridge_order. simpl. tauto.
Defined.

(** Cells are visited from the highest to the lowest: a cell is never
    visited before a cell whose elevation is strictly greater (the comparison
    of the program, false on NaNs). *)
Theorem visit_highest_first (elev : array fval) (p q : nat) :
  p < q -> q < length (visiting_order elev) ->
  fltb (fst (key_at (combo_of elev) (nth p (visiting_order elev) 0)))
       (fst (key_at (combo_of elev) (nth q (visiting_order elev) 0)))
  = false.
Proof.
  intros Hpq Hq.
  pose proof (@visiting_order_descending elev p q Hpq Hq) as H.
  apply key_le_spec in H.
  destruct (fltb _ _) eqn:E; [|reflexivity].
  assert (D : DOUBLE_LT
                (fst (key_at (combo_of elev) (nth p (visiting_order elev) 0)))
                (fst (key_at (combo_of elev) (nth q (visiting_order elev) 0)))
              = true)
    by (unfold DOUBLE_LT; now rewrite E).
  destruct H as [H|[H _]].
  - apply DOUBLE_LT_asym in H. congruence.
  - rewrite H, DOUBLE_LT_irrefl in D. discriminate.
Qed.

Lemma visit_highest_first_witness :
  fltb (fst (key_at (combo_of E_ridge) (nth 0 (visiting_order E_ridge) 0)))
       (fst (key_at (combo_of E_ridge) (nth 1 (visiting_order E_ridge) 0)))
  = false.
Proof.
  apply (visit_highest_first E_ridge 0 1).
  - lia.
  - rewrite E_ridge_order. simpl. lia.
Defined.

(** ** Flats are level *)

(** Two cells that [labelFlats] gives the same positive id have the same
    elevation: the elevation that the sweep keeps in [curC] for a flat is the
    elevation of every member, whichever member it was read from. *)
Theorem flat_region_is_level (elev : array fval) (p q : nat * nat) :
  nget (fst (labelFlats elev)) (fst p) (snd p) <> 0 ->
  nget (fst (labelFlats elev)) (fst p) (snd p)
  = nget (fst (labelFlats elev)) (fst q) (snd q) ->
  fget elev (fst p) (snd p) = fget elev (fst q) (snd q).
Proof.
  intros Hp E. apply chain_level.
  apply labelFlats_same_id; congruence.
Qed.

Lemma flat_region_is_level_witness :
  fget E_ridge 1 2 = fget E_ridge 1 3.
Proof.
  apply (flat_region_is_level E_ridge (1, 2) (1, 3)).
  - vm_compute. discriminate.
  - vm_compute. reflexivity.
Defined.

(** ** The counter of [labelFlats] *)

(** After the eight rounds of the loop no entry of [out] exceeds 8, so the
    int8 counter of the source cannot overflow, and the entries outside the
    inner slice are 0. *)
Theorem flat_counter_bound (source : array fval) (r c : nat) :
  let out := fold_left (count_round source) cc
               (zeros (nrows_of source) (ncols_of source)) in
  nget out r c <= 8
  /\ (interior (nrows_of source) (ncols_of source) r c = false ->
      nget out r c = 0).
Proof.
  intros out.
  assert (Z : nget (zeros (nrows_of source) (ncols_of source)) r c = 0).
  { unfold zeros. rewrite nget_tabulate. now destruct (in_box _ _ _ _). }
  destruct (in_box (nrows_of source) (ncols_of source) r c) eqn:Hbox.
  - unfold in_box in Hbox. apply andb_true_iff in Hbox.
    destruct Hbox as [Hr Hc]. apply Nat.ltb_lt in Hr. apply Nat.ltb_lt in Hc.
    unfold out. rewrite count_rounds_at by assumption. rewrite Z.
    destruct (interior _ _ r c); [|split; [lia|reflexivity]].
    split; [|discriminate].
    assert (Hle : forall l, neighbours_ge source r c l <= length l).
    { induction l as [|a l IH]; simpl; [lia|].
      destruct (fgeb _ _); simpl; lia. }
    specialize (Hle cc). simpl length in Hle. lia.
  - assert (E : nget out r c = 0).
    { unfold out.
      change cc with ([(0,0);(0,1);(0,2);(1,0);(1,2);(2,0);(2,1)] ++ [(2,2)]).
      rewrite fold_left_app.
      change (fold_left (count_round source) [(2, 2)] ?z)
        with (count_round source z (2, 2)).
      unfold count_round at 1. now rewrite nget_tabulate, Hbox. }
    rewrite E. split; [lia|reflexivity].
Qed.

(** ** More on [flatThing] and on the ordinary step *)

(** [flatThing] for an id that labels no cell changes nothing: the zonal sum
    of no cell is 0, there is no ring, and the quotient by the zero count is
    written nowhere. *)
Theorem flatThing_unknown_id
  (e_c : key) (flats : array nat) (accum elev : array fval) :
  (forall r c, r < nrows_of flats -> c < ncols_of flats ->
               nget flats r c <> snd e_c) ->
  zonal_sum flats (snd e_c) accum = f0
  /\ forall r c, r < nrows_of accum -> c < ncols_of accum ->
       fget (flatThing e_c flats accum elev) r c = fget accum r c.
Proof.
  intros Hno.
  assert (HF : forall r c, bget (flat_members flats (snd e_c)) r c = false).
  { intros r c. rewrite flat_members_at.
    destruct (in_box _ _ r c) eqn:Hbox; [|reflexivity].
    unfold in_box in Hbox. apply andb_true_iff in Hbox.
    destruct Hbox as [Hr Hc]. apply Nat.ltb_lt in Hr. apply Nat.ltb_lt in Hc.
    simpl. apply Nat.eqb_neq. now apply Hno. }
  split.
  - unfold zonal_sum, masked.
    replace (filter _ _) with (@nil (nat * nat)); [reflexivity|].
    symmetry. induction (cells (nrows_of accum) (ncols_of accum))
      as [|[r c] l IH]; simpl; [reflexivity|].
    now rewrite HF.
  - intros r c Hr Hc. rewrite flatThing_at by assumption. rewrite HF.
    rewrite pour_points_ring.
    destruct (bget (flat_ring _) r c) eqn:E; [|reflexivity].
    apply flat_ring_spec in E. destruct E as (_ & _ & _ & q & _ & Hq).
    now rewrite HF in Hq.
Qed.

Lemma flatThing_unknown_id_witness :
  zonal_sum (fst (labelFlats E_ridge)) 7 (ones_like E_ridge) = f0
  /\ forall r c, r < nrows_of (ones_like E_ridge) ->
                 c < ncols_of (ones_like E_ridge) ->
       fget (flatThing (qv 5 1, 7) (fst (labelFlats E_ridge))
                       (ones_like E_ridge) E_ridge) r c
       = fget (ones_like E_ridge) r c.
Proof.
  apply (flatThing_unknown_id (qv 5 1, 7)).
  intros r c Hr Hc.
  assert (ER : nrows_of (fst (labelFlats E_ridge)) = 3)
    by (vm_compute; reflexivity).
  assert (EC : ncols_of (fst (labelFlats E_ridge)) = 5)
    by (vm_compute; reflexivity).
  rewrite ER in Hr. rewrite EC in Hc.
  do 3 (destruct r as [|r];
        [do 5 (destruct c as [|c]; [vm_compute; discriminate|]); lia|]).
  lia.
Defined.

Lemma fadd_zero_r (v : fval) : fadd v (Fin Qc0) = v.
Proof.
  destruct v as [a| | |]; simpl; try reflexivity.
  f_equal. unfold Qc0. ring.
Qed.

Lemma zero_share (total centre : fval) :
  fltb f0 total = true -> is_fin centre = true ->
  fmul (fdiv f0 total) centre = Fin Qc0.
Proof.
  intros Hpos Hfin.
  destruct centre as [m| | |]; try discriminate.
  destruct total as [t| | |]; try discriminate.
  - apply fltb_f0_Fin in Hpos. simpl. rewrite (Qc_pos_eqb Hpos). simpl.
    f_equal. unfold Qc0. field. now apply Qc_pos_neq.
  - simpl. f_equal. unfold Qc0. ring.
Qed.

(** No flow goes uphill or sideways: when the total drop of an ordinary cell
    is strictly positive, every cell of the window that is not strictly
    lower than the centre (the centre itself, higher or level cells, cells
    without elevation) keeps its value, whatever that value is. *)
Theorem distribute_only_downhill
  (elev accum : array fval) (y x i j : nat) :
  y + i < nrows_of accum -> x + j < ncols_of accum -> i < 3 -> j < 3 ->
  fltb f0 (diff_sum elev y x) = true ->
  is_fin (fget accum (y + 1) (x + 1)) = true ->
  fltb (win elev y x i j) (win elev y x 1 1) = false ->
  fget (distribute elev accum y x) (y + i) (x + j) = fget accum (y + i) (x + j).
Proof.
  intros Hr Hc Hi Hj Hpos Hfin Hhigh.
  rewrite distribute_window by assumption.
  unfold diff. rewrite Hhigh.
  rewrite zero_share by assumption. apply fadd_zero_r.
Qed.

Lemma distribute_only_downhill_witness :
  fget (distribute E_ridge (ones_like E_ridge) 0 0) (0 + 0) (0 + 2)
  = fget (ones_like E_ridge) (0 + 0) (0 + 2).
Proof.
  apply distribute_only_downhill.
  - vm_compute. lia.
  - vm_compute. lia.
  - lia.
  - lia.
  - vm_compute. reflexivity.
  - vm_compute. reflexivity.
  - vm_compute. reflexivity.
Defined.

(** ** The sweep as a whole *)

Lemma run_ge_start (elev : array fval) :
  positive_drops elev ->
  forall k, grid_le (fst (run elev 0)) (fst (run elev k)).
Proof.
  intros Hpos. induction k as [|k IH].
  - apply grid_le_refl. now destruct (@run_inv elev Hpos 0).
  - destruct (@run_inv elev Hpos 0) as [S0 N0].
    destruct (@run_inv elev Hpos k) as [Sk Nk].
    destruct (@run_inv elev Hpos (S k)) as [SSk NSk].
    apply (@grid_le_trans (fst (run elev 0)) (fst (run elev k))
             (fst (run elev (S k)))); try assumption.
    + destruct S0 as [a0 b0]. destruct Sk as [ak bk]. split; congruence.
    + destruct SSk as [a1 b1]. destruct Sk as [ak bk]. split; congruence.
    + now apply run_mono.
Qed.

(** When every ordinary cell visited by the sweep has a strictly positive
    finite total drop, with no overflow, every cell of the result of
    [multipath] is a real number and at least 1.0: a cell never loses the
    unit it starts with. *)
Theorem multipath_at_least_one (elev : array fval) (r c : nat) :
  tame_drops elev ->
  r < nrows_of elev -> c < ncols_of elev ->
  exists a, fget (multipath elev) r c = Fin a /\ (Qc1 <= a)%Qc.
Proof.
  intros Htame Hr Hc.
  pose proof (@tame_drops_positive elev Htame) as Hpos.
  unfold multipath, sweep.
  set (n := length (visiting_order elev)).
  destruct (@run_inv elev Hpos n) as [[HR HC] Hnn].
  destruct (Hnn r c) as (a & Ha & _); try lia.
  exists a. split; [assumption|].
  pose proof (@run_ge_start elev Hpos n r c) as Hle.
  rewrite run_0 in Hle. simpl in Hle.
  destruct (ones_like_shape elev) as [HR1 HC1].
  rewrite ones_like_at in Hle by assumption.
  rewrite Ha in Hle. apply fleb_Fin_inv. apply Hle; lia.
Qed.

Lemma multipath_at_least_one_witness :
  exists a, fget (multipath E_ridge) 1 2 = Fin a /\ (Qc1 <= a)%Qc.
Proof.
  apply (multipath_at_least_one E_ridge 1 2 E_ridge_tame_drops).
  - vm_compute. lia.
  - vm_compute. lia.
Defined.

Lemma run_cursor (elev : array fval) :
  forall k key,
    snd (run elev k) = Some key ->
    snd key <> 0
    /\ exists i, In i (visiting_order elev) /\ key = key_at (combo_of elev) i.
Proof.
  induction k as [|k IH]; intros key H.
  - rewrite run_0 in H. discriminate.
  - destruct (Nat.lt_ge_cases k (length (visiting_order elev))) as [Hk|Hk].
    + rewrite run_S in H by assumption.
      assert (Hin : In (nth k (visiting_order elev) 0) (visiting_order elev))
        by now apply nth_In.
      set (i := nth k (visiting_order elev) 0) in *.
      destruct (run elev k) as [accum curC]. unfold sweep_step in H.
      cbv zeta in H.
      destruct (negb (snd (key_at (combo_of elev) i) =? 0)) eqn:Hfid.
      * assert (Hne : snd (key_at (combo_of elev) i) <> 0)
          by now apply Nat.eqb_neq, negb_true_iff.
        assert (E : Some (key_at (combo_of elev) i) = Some key).
        { destruct curC as [k'|];
            [destruct (void_nonzero k' &&
                       negb (snd k' =? snd (key_at (combo_of elev) i)))|];
            exact H. }
        inversion E; subst. split; [assumption|]. now exists i.
      * simpl in H. destruct curC as [k'|]; [|discriminate].
        destruct (void_nonzero k'); [discriminate|].
        simpl in H. now apply IH.
    + rewrite (@run_stop elev (S k)) in H by lia.
      rewrite <- (@run_stop elev k Hk) in H. now apply IH.
Qed.

(** The cursor [curC] is [None] or the record of a visited cell of a flat:
    its flat id is positive, so the truth test [if curC] of the source can
    only fail on [None], and its elevation is the elevation of every cell
    that bears its flat id. *)
Theorem cursor_is_an_open_flat (elev : array fval) (k : nat) (key : key) :
  snd (run elev k) = Some key ->
  snd key <> 0
  /\ truthy (Some key) = true
  /\ forall r c, nget (fst (labelFlats elev)) r c = snd key ->
       fget elev r c = fst key.
Proof.
  intros H. destruct (run_cursor elev k key H) as (Hne & i & Hin & E).
  split; [assumption|]. split.
  - simpl. unfold void_nonzero. apply orb_true_iff. right.
    now apply negb_true_iff, Nat.eqb_neq.
  - intros r c Hid.
    pose proof (@visiting_order_bound elev i Hin) as Hb.
    rewrite (@key_at_combo elev i Hb) in E. subst key. simpl in *.
    symmetry.
    apply (@chain_level elev
             (i mod (nrows_of elev - 2) + 1, i / (nrows_of elev - 2) + 1)
             (r, c)).
    apply labelFlats_same_id; simpl; congruence.
Qed.

Lemma cursor_is_an_open_flat_witness :
  snd (qv 5 1, 1) <> 0
  /\ truthy (Some (qv 5 1, 1)) = true
  /\ forall r c, nget (fst (labelFlats E_ridge)) r c = snd (qv 5 1, 1) ->
       fget E_ridge r c = fst (qv 5 1, 1).
Proof.
  apply (cursor_is_an_open_flat E_ridge 2 (qv 5 1, 1)).
  vm_compute. reflexivity.
Defined.

(** When every inner cell bears one and the same flat id, the loop only
    moves the cursor: no flat is resolved, nothing is distributed, and
    [multipath] returns 1.0 in every cell. *)
Theorem multipath_of_a_single_flat (elev : array fval) (id : nat) :
  id <> 0 ->
  (forall i, In i (visiting_order elev) ->
             snd (key_at (combo_of elev) i) = id) ->
  multipath elev = ones_like elev.
Proof.
  intros Hid Hall. unfold multipath, sweep, run.
  rewrite firstn_all.
  assert (H : forall l st,
    (forall i, In i l -> snd (key_at (combo_of elev) i) = id) ->
    (snd st = None \/ exists k, snd st = Some k /\ snd k = id) ->
    fst (fold_left (sweep_step elev (fst (labelFlats elev)) (combo_of elev)
                      (nrows_of elev - 2)) l st) = fst st).
  { induction l as [|i l IH]; intros [accum curC] Hl Hc; [reflexivity|].
    simpl fold_left. rewrite IH.
    - unfold sweep_step. rewrite (Hl i (or_introl eq_refl)).
      apply Nat.eqb_neq in Hid. rewrite Hid. simpl.
      destruct Hc as [Hc|(k & Hc & Hk)]; simpl in Hc; subst curC;
        [reflexivity|].
      rewrite Hk, Nat.eqb_refl, andb_false_r. reflexivity.
    - intros j Hj. apply Hl. now right.
    - right. unfold sweep_step. rewrite (Hl i (or_introl eq_refl)).
      apply Nat.eqb_neq in Hid. rewrite Hid. simpl.
      exists (key_at (combo_of elev) i).
      split; [|now apply Hl; left].
      destruct curC as [k|]; [|reflexivity].
      now destruct (void_nonzero k && negb (snd k =? id)). }
  rewrite H; [reflexivity|assumption|now left].
Qed.

Lemma multipath_of_a_single_flat_witness :
  multipath E_sink = ones_like E_sink.
Proof.
  apply (multipath_of_a_single_flat E_sink 1).
  - discriminate.
  - intros i Hi.
    assert (E : visiting_order E_sink = [0]) by (vm_compute; reflexivity).
    rewrite E in Hi. destruct Hi as [<-|[]].
    vm_compute. reflexivity.
Defined.

(** ** Ties in the order *)

Lemma combo_compare_refl (k : key) : combo_compare k k = Eq.
Proof.
  unfold combo_compare, DOUBLE_compare. rewrite DOUBLE_LT_irrefl.
  apply Nat.compare_refl.
Qed.

Lemma insert_index_stable (combo : list key) (i : nat) (l : list nat) :
  StronglySorted (stable_before combo) l ->
  Forall (fun x => i < x) l ->
  StronglySorted (stable_before combo) (insert_index combo i l).
Proof.
  induction 1 as [|j l Hs IH Hj]; intros Hlt; simpl.
  - constructor; constructor.
  - inversion Hlt as [|j' l' Hij Hl]; subst.
    assert (Hfront :
      combo_compare (key_at combo j) (key_at combo i) <> Lt ->
      StronglySorted (stable_before combo) (i :: j :: l)).
    { intros Hc. constructor; [now constructor|].
      assert (Hle : key_le (key_at combo i) (key_at combo j))
        by now apply combo_compare_not_Lt.
      constructor; [now split|].
      rewrite Forall_forall in Hj, Hl |- *. intros x Hx. split.
      - apply key_le_trans with (key_at combo j); [assumption|].
        now apply Hj.
      - intros _. now apply Hl. }
    destruct (combo_compare (key_at combo j) (key_at combo i)) eqn:E.
    + apply Hfront. discriminate.
    + constructor; [now apply IH|].
      apply (Permutation_Forall
               (Permutation_sym (insert_index_perm combo i l))).
      constructor; [|assumption]. split.
      * now apply combo_compare_Lt.
      * intros Heq. rewrite Heq, combo_compare_refl in E. discriminate.
    + apply Hfront. discriminate.
Qed.

Lemma argsort_from_stable (combo : list key) (n : nat) : forall s,
  StronglySorted (stable_before combo)
    (fold_right (insert_index combo) [] (seq s n))
  /\ Forall (fun x => s <= x)
       (fold_right (insert_index combo) [] (seq s n)).
Proof.
  induction n as [|n IH]; intros s; simpl.
  - split; constructor.
  - destruct (IH (S s)) as [H1 H2]. split.
    + apply insert_index_stable; [assumption|].
      eapply Forall_impl; [|exact H2]. intros x Hx. simpl in Hx. lia.
    + apply (Permutation_Forall
               (Permutation_sym (insert_index_perm combo s _))).
      constructor; [lia|].
      eapply Forall_impl; [|exact H2]. intros x Hx. simpl in Hx. lia.
Qed.

(** The sort is stable and the order is its reverse: of two cells with the
    same record (same elevation and same flat id), the one with the greater
    index in the flattened array is visited first. *)
Theorem ties_visited_by_decreasing_index (elev : array fval) (p q : nat) :
  p < q -> q < length (visiting_order elev) ->
  key_at (combo_of elev) (nth p (visiting_order elev) 0)
  = key_at (combo_of elev) (nth q (visiting_order elev) 0) ->
  nth q (visiting_order elev) 0 < nth p (visiting_order elev) 0.
Proof.
  intros Hpq Hq Heq. unfold visiting_order in *. rewrite length_rev in Hq.
  rewrite !rev_nth in * by lia.
  destruct (argsort_from_stable (combo_of elev) (length (combo_of elev)) 0)
    as [Hs _].
  fold (argsort (combo_of elev)) in Hs.
  destruct (@StronglySorted_nth nat (stable_before (combo_of elev)) 0
              (argsort (combo_of elev)) Hs
              (length (argsort (combo_of elev)) - S q)
              (length (argsort (combo_of elev)) - S p)) as [_ H];
    try lia.
  apply H. now symmetry.
Qed.

Lemma ties_visited_by_decreasing_index_witness :
  nth 2 (visiting_order E_ridge) 0 < nth 1 (visiting_order E_ridge) 0.
Proof.
  apply (ties_visited_by_decreasing_index E_ridge 1 2).
  - lia.
  - rewrite E_ridge_order. simpl. lia.
  - vm_compute. reflexivity.
Defined.
